(** * Graph fraud detection pipeline: a shallow embedding

    The development follows the three scripts of the repository:

    - [Preprocess]: src/preprocess_data.py, the attribute synthesizer
      (devices, merchants, locations, phones, emails), over a model of
      Python's [random] module;
    - [Loader]: src/load_to_neo4j.py, the Cypher statement of [load_batch]
      run clause by clause over a property graph with the uniqueness
      constraints of [setup_constraints];
    - [Risk]: src/run_algorithms.py, the two rule statements and the export
      query, over the User nodes and their optional properties. *)

From stdpp Require Import gmap strings list fin_maps pretty sorting.
From Stdlib Require Import ZArith Lia SpecFloat Ascii.

Open Scope Z_scope.

(** ** Python floats, as far as the scripts use them

    A binary64 constant is kept as its exact value [mant * 2^expo].  The one
    float operation of the scripts that rounds is [int(n * c)] for a
    non-negative integer [n]: the exact product [n * mant * 2^expo] is
    rounded to 53 significant bits, ties to even, and truncated. *)
Module PyFloat.

Record float := Float { mant : Z; expo : Z }.

(** Round a non-negative significand to at most 53 bits: the result
    [(m', s)] stands for [m' * 2^s]. *)
Definition round53 (m : Z) : Z * Z :=
  let s := Z.max 0 (Z.log2 m + 1 - 53) in
  let q := m / 2 ^ s in
  let r := m `mod` 2 ^ s in
  let up := bool_decide (2 ^ s < 2 * r)
            || (bool_decide (2 * r = 2 ^ s) && Z.odd q) in
  (if up then q + 1 else q, s).

(** [int(n * c)] *)
Definition int_mul (n : Z) (c : float) : Z :=
  let '(m, s) := round53 (n * mant c) in
  let e := s + expo c in
  if decide (0 ≤ e) then m * 2 ^ e else m / 2 ^ (- e).

(** The same product through the IEEE 754 model of the standard library. *)
Definition int_of_spec_float (f : spec_float) : Z :=
  match f with
  | S754_finite sg m e =>
      let a := if decide (0 ≤ e) then Z.pos m * 2 ^ e
               else Z.pos m / 2 ^ (- e) in
      if sg then - a else a
  | _ => 0
  end.

Definition to_spec_float (c : float) : spec_float :=
  binary_normalize 53 1024 (mant c) (expo c) false.

Definition int_mul_ieee (n : Z) (c : float) : Z :=
  int_of_spec_float
    (SFmul 53 1024 (binary_normalize 53 1024 n 0 false) (to_spec_float c)).

End PyFloat.

(** ** Python's [random] module

    The Mersenne Twister itself is not embedded.  A generator is any state
    type with the three entry points the scripts reach: [random.seed(a)],
    [Random._randbelow(n)] (the primitive under [randint], [choice],
    [shuffle] and [sample]) and [random.random()], whose result is the float
    [k / 2^53] for a 53-bit integer [k]; [random53] returns that [k]. *)
Module PyRandom.
Export PyFloat.

Class RandomGen := {
  rng : Type;
  mt_seed : Z → rng;
  randbelow : Z → rng → Z * rng;
  random53 : rng → Z * rng;
  randbelow_range : ∀ n g, 0 < n → 0 ≤ (randbelow n g).1 < n
}.

Section Monad.
Context `{RandomGen}.

(** Code that reads and advances the module-level generator. *)
Definition Rand (A : Type) : Type := rng → A * rng.

Definition ret {A} (a : A) : Rand A := λ g, (a, g).
Definition bind {A B} (m : Rand A) (k : A → Rand B) : Rand B :=
  λ g, let (a, g') := m g in k a g'.

End Monad.

Notation "'let*' x ':=' m 'in' k" := (bind m (λ x, k))
  (at level 10, x name, m at level 100, k at level 200).

Section Functions.
Context `{RandomGen}.

(** [random.seed(a)]: the previous state is discarded. *)
Definition seed (a : Z) : Rand unit := λ _, (tt, mt_seed a).

(** [random.randint(a, b)] is [a + _randbelow(b - a + 1)]. *)
Definition randint (a b : Z) : Rand Z :=
  let* r := randbelow (b - a + 1) in ret (a + r).

(** [random.random() < c]: [k / 2^53 < mant * 2^expo], compared exactly. *)
Definition random_lt (c : float) : Rand bool :=
  let* k := random53 in
  ret (bool_decide (k * 2 ^ (- expo c) < mant c * 2 ^ 53)).

(** [random.choice(seq)] is [seq[_randbelow(len(seq))]]. *)
Definition choice `{Inhabited A} (l : list A) : Rand A :=
  let* j := randbelow (Z.of_nat (length l)) in ret (l !!! Z.to_nat j).

(** [x[i], x[j] = x[j], x[i]] *)
Definition swap {A} (x : list A) (i j : nat) : list A :=
  match x !! i, x !! j with
  | Some a, Some b => <[i:=b]> (<[j:=a]> x)
  | _, _ => x
  end.

(** [random.shuffle(x)]:
    [for i in reversed(range(1, len(x))): j = randbelow(i + 1); swap]. *)
Fixpoint shuffle_from {A} (i : nat) (x : list A) : Rand (list A) :=
  match i with
  | O => ret x
  | S i' =>
      let* j := randbelow (Z.of_nat i + 1) in
      shuffle_from i' (swap x i (Z.to_nat j))
  end.

Definition shuffle {A} (x : list A) : Rand (list A) :=
  shuffle_from (length x - 1) x.

(** How a call ends: with a value, with [ValueError], or still in a
    loop after the draws it was given. *)
Inductive outcome (A : Type) :=
  | Returned (a : A)
  | ValueError
  | Unfinished.
Global Arguments Returned {A} a.
Global Arguments ValueError {A}.
Global Arguments Unfinished {A}.

(** [random.sample(population, k)] has two branches.  The pool branch:
    [j = randbelow(n - i); result[i] = pool[j]; pool[j] = pool[n - i - 1]].
    The live part [pool[:n - i]] is kept as the list itself. *)
Fixpoint sample_pool {A} (pool : list A) (k : nat) : Rand (list A) :=
  match k with
  | O => ret []
  | S k' =>
      let n := length pool in
      let* j := randbelow (Z.of_nat n) in
      match pool !! Z.to_nat j, pool !! (n - 1)%nat with
      | Some x, Some y =>
          let* rest := sample_pool (take (n - 1) (<[Z.to_nat j := y]> pool)) k' in
          ret (x :: rest)
      | _, _ => ret []
      end
  end.

(** [setsize = 21; if k > 5: setsize += 4 ** _ceil(_log(k * 3, 4))].
    [3k] is never a power of 4, so the ceiling of its base-4 logarithm
    is half the ceiling of its base-2 logarithm, rounded up.  The
    library takes the logarithm in binary64; for [3k] below [4 ^ 24],
    which covers every table of fewer than [2 ^ 49] rows, the quotient
    [log(3k) / log(4)] is far enough from an integer for its ceiling to
    be the exact one. *)
Definition sample_setsize (k : nat) : Z :=
  if decide (5 < k)%nat
  then 21 + 4 ^ ((Z.log2_up (3 * Z.of_nat k) + 1) / 2)
  else 21.

(** [while j in selected: j = randbelow(n)], for at most [fuel] new
    draws; [None] when [j] is still selected after them. *)
Fixpoint redraw (fuel : nat) (n : Z) (selected : gset Z) (j : Z)
  : Rand (option Z) :=
  if decide (j ∈ selected) then
    match fuel with
    | O => ret None
    | S fuel' => let* j' := randbelow n in redraw fuel' n selected j'
    end
  else ret (Some j).

(** The set branch:
    [j = randbelow(n); while j in selected: j = randbelow(n);
     selected_add(j); result[i] = population[j]].
    The index read is below [n], so [population[j]] is there. *)
Fixpoint sample_set {A} (fuel : nat) (population : list A)
    (selected : gset Z) (k : nat) : Rand (option (list A)) :=
  match k with
  | O => ret (Some [])
  | S k' =>
      let n := Z.of_nat (length population) in
      let* j0 := randbelow n in
      let* j := redraw fuel n selected j0 in
      match j with
      | None => ret None
      | Some j =>
          match population !! Z.to_nat j with
          | Some x =>
              let* rest :=
                sample_set fuel population ({[j]} ∪ selected) k' in
              ret ((λ r, x :: r) <$> rest)
          | None => ret None
          end
      end
  end.

(** [ValueError] when [k] exceeds the population; the pool branch when
    [n <= setsize], the set branch otherwise. *)
Definition sample {A} (fuel : nat) (population : list A) (k : nat)
  : Rand (outcome (list A)) :=
  let n := length population in
  if decide (k ≤ n)%nat then
    if decide (Z.of_nat n ≤ sample_setsize k) then
      let* r := sample_pool population k in ret (Returned r)
    else
      let* r := sample_set fuel population ∅ k in
      ret (match r with Some r => Returned r | None => Unfinished end)
  else ret ValueError.

End Functions.

(** A generator that replays a tape of raw words: for examples. *)
Record tape := Tape { words : nat → Z; pos : nat }.

Definition tape_next (t : tape) : Z * tape :=
  (words t (pos t), Tape (words t) (S (pos t))).

Definition TapeGen (init : Z → nat → Z) : RandomGen := {|
  rng := tape;
  mt_seed a := Tape (init a) 0;
  randbelow n t := ((tape_next t).1 `mod` n, (tape_next t).2);
  random53 t := ((tape_next t).1 `mod` 2 ^ 53, (tape_next t).2);
  randbelow_range n t h := Z.mod_pos_bound (tape_next t).1 n h
|}.

(** A generator whose words count up from the seed: for examples. *)
Definition CountGen : RandomGen := TapeGen (λ a i, a + Z.of_nat i).

End PyRandom.

(** ** src/preprocess_data.py *)
Module Preprocess.
Import PyRandom.

(** *** Settings *)
Definition SAMPLE_ROWS : Z := 100000.
(** 0.24 as a binary64 value *)
Definition SHARE_RATE : float := Float 8646911284551352 (-55).
Definition MIN_GROUP : Z := 2.
Definition MAX_GROUP : Z := 6.
(** 0.16 as a binary64 value *)
Definition MERCHANT_RATE : float := Float 5764607523034235 (-55).
Definition LOCATION_COUNT : Z := 50.
(** 0.30 as a binary64 value *)
Definition PHONE_SHARE_RATE : float := Float 5404319552844595 (-54).
Definition RANDOM_SEED : Z := 28.

(** *** The table [out]

    One record per row.  The columns of [build_core_fields] are always
    present; the synthesized columns are [None] until a stage fills them
    ([Series.map] leaves a missing key empty). *)
Record row := Row {
  transaction_id : string;
  sender_id : string;
  receiver_id : string;
  amount : float;
  timestamp : string;
  label : Z;
  sender_device_id : option string;
  receiver_type : option string;
  sender_location : option string;
  sender_phone : option string;
  sender_email : option string
}.

(** [Series.unique()]: distinct values in order of first appearance. *)
Definition unique (l : list string) : list string :=
  reverse (remove_dups (reverse l)).

(** [f"{i:03d}"] *)
Definition zfill (width : nat) (s : string) : string :=
  String.concat "" (replicate (width - String.length s) "0"%string) +:+ s.

Section Stages.
Context `{RandomGen}.

(** [{s: gen() for s in keys}], one draw per key, in order. *)
Fixpoint dict_comp (gen : Rand string) (keys : list string)
    (d : gmap string string) : Rand (gmap string string) :=
  match keys with
  | [] => ret d
  | s :: keys' => let* v := gen in dict_comp gen keys' (<[s:=v]> d)
  end.

(** [for s in group: d[s] = v] *)
Definition assign_all (group : list string) (v : string)
    (d : gmap string string) : gmap string string :=
  foldl (λ d s, <[s:=v]> d) d group.

(** [f"D{random.randint(100000,999999)}"] *)
Definition new_device : Rand string :=
  let* n := randint 100000 999999 in ret ("D" +:+ pretty n).
(** [f"P{random.randint(100000,999999)}"] *)
Definition new_phone : Rand string :=
  let* n := randint 100000 999999 in ret ("P" +:+ pretty n).
(** [f"user{random.randint(1000,9999)}@mail.com"] *)
Definition new_email : Rand string :=
  let* n := randint 1000 9999 in ret ("user" +:+ pretty n +:+ "@mail.com").
(** [f"fraud{random.randint(1000,9999)}@mail.com"] *)
Definition new_fraud_email : Rand string :=
  let* n := randint 1000 9999 in ret ("fraud" +:+ pretty n +:+ "@mail.com").

(** The state of the device loop: the dictionary, and a trace of the
    groups the [for s in group] block ran on, each with its shared value.
    The trace is not in the script; it names the groups the properties of
    the sharing pass speak about. *)
Record dev_state := DevState {
  device_for_sender : gmap string string;
  device_groups : list (list string * string)
}.

(** The [while i < len(shuffled)] loop of [assign_devices].  Every
    iteration advances [i], so [len(shuffled)] iterations are enough;
    [None] is running out of them. *)
Fixpoint device_loop (fuel : nat) (shuffled : list string) (i : nat)
    (st : dev_state) : Rand (option dev_state) :=
  if decide (i < length shuffled)%nat then
    match fuel with
    | O => ret None
    | S fuel' =>
        let* share := random_lt SHARE_RATE in
        if share then
          let* k := randint MIN_GROUP MAX_GROUP in
          let group := take (Z.to_nat k) (drop i shuffled) in
          if decide (length group < 2)%nat then ret (Some st)
          else
            let* shared_id := new_device in
            device_loop fuel' shuffled (i + Z.to_nat k)
              (DevState (assign_all group shared_id (device_for_sender st))
                        (device_groups st ++ [(group, shared_id)]))
        else device_loop fuel' shuffled (i + 1) st
    end
  else ret (Some st).

(** [assign_devices], up to the dictionary. *)
Definition device_dict (senders : list string) : Rand (option dev_state) :=
  let* _ := seed RANDOM_SEED in
  let* d := dict_comp new_device senders ∅ in
  let* shuffled := shuffle senders in
  device_loop (length shuffled) shuffled 0 (DevState d []).

(** [assign_devices] *)
Definition set_device (d : gmap string string) (r : row) : row :=
  Row (transaction_id r) (sender_id r) (receiver_id r) (amount r)
      (timestamp r) (label r) (d !! sender_id r) (receiver_type r)
      (sender_location r) (sender_phone r) (sender_email r).

Definition assign_devices (out : list row) : Rand (option (list row)) :=
  let* st := device_dict (unique (sender_id <$> out)) in
  ret ((λ st, set_device (device_for_sender st) <$> out) <$> st).

(** [assign_merchants] *)
Definition merchant_count (receivers : list string) : nat :=
  let m := int_mul (Z.of_nat (length receivers)) MERCHANT_RATE in
  Z.to_nat (if decide (m > 0) then m else 1).

(** [random.sample(receivers, m if m > 0 else 1)], the list drawn. *)
Definition merchant_sample (fuel : nat) (receivers : list string)
  : Rand (outcome (list string)) :=
  let* _ := seed RANDOM_SEED in
  sample fuel receivers (merchant_count receivers).

Definition outcome_map {A B} (f : A → B) (o : outcome A) : outcome B :=
  match o with
  | Returned a => Returned (f a)
  | ValueError => ValueError
  | Unfinished => Unfinished
  end.

(** [merchants = set(random.sample(...))] *)
Definition merchant_set (fuel : nat) (receivers : list string)
  : Rand (outcome (gset string)) :=
  let* picked := merchant_sample fuel receivers in
  ret (outcome_map list_to_set picked).

Definition role_of (merchants : gset string) (r : string) : string :=
  if decide (r ∈ merchants) then "merchant" else "user".

Definition set_role (merchants : gset string) (r : row) : row :=
  Row (transaction_id r) (sender_id r) (receiver_id r) (amount r)
      (timestamp r) (label r) (sender_device_id r)
      (Some (role_of merchants (receiver_id r)))
      (sender_location r) (sender_phone r) (sender_email r).

Definition assign_merchants (fuel : nat) (out : list row)
  : Rand (outcome (list row)) :=
  let* ms := merchant_set fuel (unique (receiver_id <$> out)) in
  ret (outcome_map (λ ms, set_role ms <$> out) ms).

(** [assign_locations_and_contacts] *)
Definition locations : list string :=
  (λ i, "L" +:+ zfill 3 (pretty i)) <$> seqZ 1 LOCATION_COUNT.

Record contact_state := ContactState {
  phone_for_sender : gmap string string;
  email_for_sender : gmap string string;
  contact_groups : list (list string * string * string)
}.

(** [for s in group: phone_for_sender[s] = p; email_for_sender[s] = e] *)
Definition assign_both (group : list string) (p e : string)
    (d : gmap string string * gmap string string)
  : gmap string string * gmap string string :=
  foldl (λ d s, (<[s:=p]> d.1, <[s:=e]> d.2)) d group.

(** The [while] loop of [assign_locations_and_contacts]; the trace is as
    in [device_loop]. *)
Fixpoint contact_loop (fuel : nat) (shuffled : list string) (i : nat)
    (st : contact_state) : Rand (option contact_state) :=
  if decide (i < length shuffled)%nat then
    match fuel with
    | O => ret None
    | S fuel' =>
        let* share := random_lt PHONE_SHARE_RATE in
        if share then
          let* k := randint 2 5 in
          let group := take (Z.to_nat k) (drop i shuffled) in
          let* shared_phone := new_phone in
          let* shared_email := new_fraud_email in
          let d := assign_both group shared_phone shared_email
                     (phone_for_sender st, email_for_sender st) in
          contact_loop fuel' shuffled (i + Z.to_nat k)
            (ContactState d.1 d.2
               (contact_groups st ++ [(group, shared_phone, shared_email)]))
        else contact_loop fuel' shuffled (i + 1) st
    end
  else ret (Some st).

Definition contact_dicts (senders : list string)
  : Rand (gmap string string * option contact_state) :=
  let* _ := seed RANDOM_SEED in
  let* loc_map := dict_comp (choice locations) senders ∅ in
  let* phones := dict_comp new_phone senders ∅ in
  let* emails := dict_comp new_email senders ∅ in
  let* shuffled := shuffle senders in
  let* st := contact_loop (length shuffled) shuffled 0
               (ContactState phones emails []) in
  ret (loc_map, st).

Definition set_contacts (loc_map : gmap string string) (st : contact_state)
    (r : row) : row :=
  Row (transaction_id r) (sender_id r) (receiver_id r) (amount r)
      (timestamp r) (label r) (sender_device_id r) (receiver_type r)
      (loc_map !! sender_id r)
      (phone_for_sender st !! sender_id r)
      (email_for_sender st !! sender_id r).

Definition assign_locations_and_contacts (out : list row)
  : Rand (option (list row)) :=
  let* ds := contact_dicts (unique (sender_id <$> out)) in
  ret ((λ st, set_contacts ds.1 st <$> out) <$> ds.2).

(** A stage that did not return stops the script. *)
Definition and_then {A B} (m : Rand (outcome A))
    (k : A → Rand (outcome B)) : Rand (outcome B) :=
  let* a := m in
  match a with
  | Returned a => k a
  | ValueError => ret ValueError
  | Unfinished => ret Unfinished
  end.

(** A stage whose loop is given the iterations it needs. *)
Definition finished {A} (m : Rand (option A)) : Rand (outcome A) :=
  let* a := m in
  ret (match a with Some a => Returned a | None => Unfinished end).

(** [main], from the table of [build_core_fields] to the exported rows;
    [fuel] bounds the redraws of each pick of [random.sample]. *)
Definition main (fuel : nat) (out : list row) : Rand (outcome (list row)) :=
  and_then (finished (assign_devices out)) (λ out,
  and_then (assign_merchants fuel out) (λ out,
  finished (assign_locations_and_contacts out))).


(** Where the contact loop stands at cursor [i]: every group formed so
    far lies before the cursor and its members hold the group's phone and
    email. *)
Definition contact_inv (shuffled : list string) (i : nat)
    (st : contact_state) : Prop :=
  ∀ grp p e, (grp, p, e) ∈ contact_groups st → ∀ s, s ∈ grp →
    s ∈ take i shuffled ∧ phone_for_sender st !! s = Some p
    ∧ email_for_sender st !! s = Some e.

(** Where the device loop stands at cursor [i]: every group formed so
    far has 2 to 6 members, lies before the cursor, and its members hold
    the group's device. *)
Definition device_inv (shuffled : list string) (i : nat)
    (st : dev_state) : Prop :=
  ∀ grp v, (grp, v) ∈ device_groups st →
    (2 ≤ length grp ≤ 6)%nat ∧
    ∀ s, s ∈ grp →
      s ∈ take i shuffled ∧ device_for_sender st !! s = Some v.

(** The two shapes of an email, and being in a phone/email group. *)
Definition is_fraud_email (e : string) : Prop :=
  ∃ n, 1000 ≤ n ≤ 9999 ∧ e = "fraud" +:+ pretty n +:+ "@mail.com".
Definition is_user_email (e : string) : Prop :=
  ∃ n, 1000 ≤ n ≤ 9999 ∧ e = "user" +:+ pretty n +:+ "@mail.com".
Definition in_contact_group (st : contact_state) (s : string) : Prop :=
  Exists (λ g, s ∈ g.1.1) (contact_groups st).

(** What the contact loop has done to the emails it started from: the
    email of every group is a fraud email, and a sender outside every
    group has the email it started with. *)
Definition contact_frame (emails0 : gmap string string)
    (st : contact_state) : Prop :=
  (∀ grp p e, (grp, p, e) ∈ contact_groups st → is_fraud_email e) ∧
  (∀ s, ¬ in_contact_group st s →
        email_for_sender st !! s = emails0 !! s).

End Stages.

(** *** [build_core_fields]

    A row of the raw table, with [amount] as [pd.to_numeric(...,
    errors="coerce")] leaves it: [None] where the cell is not a number. *)
Record raw_row := RawRow {
  step : Z;
  raw_amount : option float;
  nameOrig : string;
  nameDest : string;
  isFraud : Z
}.

Section CoreFields.
(** The blake2b digest [h] and the text of
    [(START_DATE + timedelta(hours=step)).isoformat()] are taken as
    given. *)
Variable h : string → string.
Variable isoformat_hours : Z → string.

(** [f"T{i:07d}"] *)
Definition txn_id (i : nat) : string := "T" +:+ zfill 7 (pretty i).

(** Row [i] of [out], if it passes [dropna(subset=["amount"])] and
    [out["amount"] > 0]. *)
Definition core_row (i : nat) (r : raw_row) : option row :=
  match raw_amount r with
  | None => None
  | Some a =>
      if decide (0 < mant a) then
        Some (Row (txn_id i) (h (nameOrig r)) (h (nameDest r)) a
                  (isoformat_hours (step r)) (isFraud r)
                  None None None None None)
      else None
  end.

(** The columns are built for every position [i in range(n)] and the rows
    that fail are dropped afterwards: the ids keep the position. *)
Fixpoint core_rows (i : nat) (df : list raw_row) : list row :=
  match df with
  | [] => []
  | r :: df' =>
      match core_row i r with
      | Some x => x :: core_rows (S i) df'
      | None => core_rows (S i) df'
      end
  end.

Definition build_core_fields (df : list raw_row) : list row :=
  core_rows 0 df.

End CoreFields.

(** Reading a string of decimal digits. *)
Definition digit_value (c : ascii) : N := (N_of_ascii c - 48)%N.
Fixpoint digits_value (acc : N) (s : string) : N :=
  match s with
  | EmptyString => acc
  | String c s' => digits_value (10 * acc + digit_value c) s'
  end.

(** A generator whose every word is 0, for examples: each [randint]
    returns its lower bound and each share trial succeeds. *)
Definition ZeroGen : RandomGen := TapeGen (λ _ _, 0).
Definition zero_tape : @rng ZeroGen := Tape (λ _, 0) 0.



(** Twenty-two receivers [r0] to [r21], one row to each, and a
    generator whose first words are 21, 21, 3, 7: the second pick of the
    set branch draws 21 again and draws anew. *)
Definition names22 : list string := (λ i, "r" +:+ pretty i) <$> seqZ 0 22.
Definition TraceGen : RandomGen :=
  TapeGen (λ _ i, nth i [21; 21; 3; 7] 0).
Definition trace_tape : @rng TraceGen := Tape (λ _, 0) 0.


End Preprocess.

(** ** src/load_to_neo4j.py

    The graph has nodes with a set of labels and the property [id], and
    relationships between nodes.  A node is identified by its position in
    [nodes]: nothing in the script deletes a node.  The statement of
    [load_batch] is run the way Cypher defines it: clause by clause, each
    clause over every row of the table the previous one produced. *)
Module Loader.
Import PyFloat.

Inductive node_label := User | Merchant | Device | Location | Phone | Email.
Inductive rel_type :=
  TRANSACTS_WITH | USES_DEVICE | LOCATED_IN | HAS_PHONE | HAS_EMAIL.

Global Instance node_label_eq_dec : EqDecision node_label.
Proof. solve_decision. Defined.
Global Instance rel_type_eq_dec : EqDecision rel_type.
Proof. solve_decision. Defined.
Global Instance float_eq_dec : EqDecision float.
Proof. solve_decision. Defined.

Record node := Node { labels : list node_label; id : string }.

(** The properties written by [ON CREATE SET] on a transaction. *)
Record tx_props := TxProps {
  x_amount : float;
  x_timestamp : string;
  x_label : Z
}.

Record rel := Rel {
  rtype : rel_type;
  src : nat;
  dst : nat;
  txid : option string;
  props : option tx_props
}.

Global Instance tx_props_eq_dec : EqDecision tx_props.
Proof. solve_decision. Defined.

Record graph := Graph { nodes : list node; rels : list rel }.

(** One element of [$rows]: a line of the CSV written by the synthesizer. *)
Record record := Record_ {
  transaction_id : string;
  sender_id : string;
  receiver_id : string;
  receiver_type : string;
  amount : float;
  timestamp : string;
  sender_device_id : string;
  sender_location : string;
  sender_phone : string;
  sender_email : string;
  label : Z
}.

(** [setup_constraints]: [REQUIRE x.id IS UNIQUE] for each of the six
    labels.  A write that would leave two nodes with one label and one id
    fails, and the transaction is rolled back. *)
Inductive error := ConstraintValidationFailed (l : node_label) (k : string).

Inductive result (A : Type) := Ok (a : A) | Err (e : error).
Arguments Ok {A} a.
Arguments Err {A} e.

Definition has_label (l : node_label) (n : node) : bool :=
  bool_decide (l ∈ labels n).

(** The positions of the nodes a pattern [(v:lab {id: k})] matches; no
    label in the pattern matches every label. *)
Fixpoint find_from (lab : option node_label) (k : string) (i : nat)
    (ns : list node) : list nat :=
  match ns with
  | [] => []
  | n :: ns' =>
      (if bool_decide (id n = k)
          && match lab with Some l => has_label l n | None => true end
       then [i] else [])
      ++ find_from lab k (S i) ns'
  end.

Definition find_nodes (lab : option node_label) (k : string) (g : graph)
  : list nat := find_from lab k 0 (nodes g).

(** [MERGE (v:lab {id: k})], with the labels the node has once created:
    every match is passed on; with no match one node is created.  A
    created node cannot break a constraint: no node with its label has
    its id. *)
Definition merge_node (lab : option node_label) (created : list node_label)
    (k : string) (g : graph) : graph * list nat :=
  match find_nodes lab k g with
  | [] => (Graph (nodes g ++ [Node created k]) (rels g), [length (nodes g)])
  | ms => (g, ms)
  end.

(** A node clause over the whole table: each row is extended with each
    node its pattern matched. *)
Fixpoint merge_node_rows {E} (lab : option node_label) (created : list node_label)
    (key : E → string) (rows : list E) (g : graph)
  : graph * list (E * nat) :=
  match rows with
  | [] => (g, [])
  | e :: rows' =>
      let (g1, ms) := merge_node lab created (key e) g in
      let (g2, out) := merge_node_rows lab created key rows' g1 in
      (g2, ((λ m, (e, m)) <$> ms) ++ out)
  end.

(** [SET t:Merchant REMOVE t:User] on node [t]. *)
Definition set_merchant (t : nat) (g : graph) : result graph :=
  match nodes g !! t with
  | None => Ok g
  | Some n =>
      if has_label Merchant n then
        Ok (Graph (<[t := Node (filter (λ l, l ≠ User) (labels n)) (id n)]>
                     (nodes g)) (rels g))
      else if bool_decide (find_nodes (Some Merchant) (id n) g = [])
      then Ok (Graph (<[t := Node (filter (λ l, l ≠ User) (labels n)
                                     ++ [Merchant]) (id n)]>
                        (nodes g)) (rels g))
      else Err (ConstraintValidationFailed Merchant (id n))
  end.

(** The [FOREACH] clause over the whole table. *)
Fixpoint relabel_rows (rows : list (record * nat * nat)) (g : graph)
  : result graph :=
  match rows with
  | [] => Ok g
  | (r, _, t) :: rows' =>
      if bool_decide (receiver_type r = "merchant"%string) then
        match set_merchant t g with
        | Ok g' => relabel_rows rows' g'
        | Err e => Err e
        end
      else relabel_rows rows' g
  end.

(** [MERGE (a)-[:ty {txid: k}]->(b) ON CREATE SET ...] for bound [a], [b];
    the resource relationships have no key and no properties. *)
Definition rel_matches (ty : rel_type) (k : option string) (a b : nat)
    (e : rel) : bool :=
  bool_decide (rtype e = ty ∧ src e = a ∧ dst e = b ∧ txid e = k).

Definition merge_rel (ty : rel_type) (k : option string)
    (on_create : option tx_props) (a b : nat) (g : graph) : graph :=
  if existsb (rel_matches ty k a b) (rels g) then g
  else Graph (nodes g) (rels g ++ [Rel ty a b k on_create]).

(** [MERGE (x:lab {id: key r})  MERGE (s)-[:ty]->(x)]: two clauses. *)
Definition merge_resource (lab : node_label) (ty : rel_type)
    (key : record → string) (rows : list (record * nat * nat)) (g : graph)
  : graph * list (record * nat * nat) :=
  let (g1, rows1) := merge_node_rows (Some lab) [lab] (λ e, key e.1.1) rows g in
  (foldl (λ g e, merge_rel ty None None e.1.1.2 e.2 g) g1 rows1, fst <$> rows1).

Definition merge_transaction (rows : list (record * nat * nat)) (g : graph)
  : graph :=
  foldl (λ g e,
           let r := e.1.1 in
           merge_rel TRANSACTS_WITH (Some (transaction_id r))
             (Some (TxProps (amount r) (timestamp r) (label r)))
             e.1.2 e.2 g) g rows.

(** [load_batch] *)
Definition load_batch (g : graph) (rows : list record) : result graph :=
  let (g, rows) := merge_node_rows (Some User) [User] sender_id rows g in
  let (g, rows) :=
    merge_node_rows None [User] (λ e, receiver_id e.1) rows g in
  match relabel_rows rows g with
  | Err e => Err e
  | Ok g =>
      let (g, rows) := merge_resource Device USES_DEVICE sender_device_id rows g in
      let (g, rows) := merge_resource Location LOCATED_IN sender_location rows g in
      let (g, rows) := merge_resource Phone HAS_PHONE sender_phone rows g in
      let (g, rows) := merge_resource Email HAS_EMAIL sender_email rows g in
      Ok (merge_transaction rows g)
  end.

(** [session.execute_write(load_batch, rows)]: a failed transaction leaves
    the graph as it was. *)
Definition execute_write (g : graph) (rows : list record) : graph :=
  match load_batch g rows with
  | Ok g' => g'
  | Err _ => g
  end.

(** [g'] keeps what [g] has: every relationship with its properties, every
    node with its id; a node without [User] stays without it and a
    [Merchant] stays one. *)
Definition keeps (g g' : graph) : Prop :=
  (∀ i e, rels g !! i = Some e → rels g' !! i = Some e) ∧
  (∀ i n, nodes g !! i = Some n →
     ∃ n', nodes g' !! i = Some n' ∧ id n' = id n ∧
           (User ∉ labels n → User ∉ labels n') ∧
           (Merchant ∈ labels n → Merchant ∈ labels n')).

(** The uniqueness constraints of [setup_constraints] hold: two nodes
    with a common label and the same id are one node. *)
Definition constrained (g : graph) : Prop :=
  ∀ i j ni nj l, nodes g !! i = Some ni → nodes g !! j = Some nj →
    l ∈ labels ni → l ∈ labels nj → id ni = id nj → i = j.

(** The variable bound to position [m] is a node with id [k]. *)
Definition bound_to (g : graph) (k : string) (m : nat) : Prop :=
  ∃ n, nodes g !! m = Some n ∧ id n = k.

(** What a relationship [MERGE] matches on. *)
Definition rel_key (e : rel) : rel_type * nat * nat * option string :=
  (rtype e, src e, dst e, txid e).

(** No two relationships have the same type, end nodes and [txid]. *)
Definition single_edges (g : graph) : Prop := NoDup (rel_key <$> rels g).

(** [main]: the batches [rows[i:i+BATCH_SIZE]] for
    [i in range(0, total, BATCH_SIZE)].  The cursor grows at every step,
    so [total] steps are enough. *)
Definition BATCH_SIZE : nat := 500.

Fixpoint batches_from (fuel i : nat) (rows : list record)
  : list (list record) :=
  if decide (i < length rows)%nat then
    match fuel with
    | O => []
    | S fuel' =>
        take BATCH_SIZE (drop i rows)
        :: batches_from fuel' (i + BATCH_SIZE) rows
    end
  else [].

Definition batches_of (rows : list record) : list (list record) :=
  batches_from (length rows) 0 rows.

(** [batches = (total // BATCH_SIZE) + (1 if total % BATCH_SIZE else 0)],
    the count the progress line prints. *)
Definition batches (total : nat) : nat :=
  (total `div` BATCH_SIZE
   + if decide (total `mod` BATCH_SIZE = 0) then 0 else 1)%nat.

(** The loop of [main]: one write transaction per batch; the exception
    of a failed batch ends the script, with the earlier batches
    committed. *)
Fixpoint run_batches (g : graph) (bs : list (list record))
  : graph * option error :=
  match bs with
  | [] => (g, None)
  | b :: bs' =>
      match load_batch g b with
      | Ok g' => run_batches g' bs'
      | Err e => (g, Some e)
      end
  end.

Definition main_loop (g : graph) (rows : list record)
  : graph * option error :=
  run_batches g (batches_of rows).

(** Sample batches: [A] pays the merchant [X]; [X] pays [B]; and the first
    transaction again with another amount, timestamp and label. *)
Definition pay_merchant : record :=
  Record_ "T0000000" "A" "X" "merchant" (Float 181 0) "2025-01-01T01:00:00"
          "D100001" "L001" "P100001" "user1001@mail.com" 0.
Definition merchant_pays : record :=
  Record_ "T0000001" "X" "B" "user" (Float 25 1) "2025-01-01T02:00:00"
          "D100002" "L002" "P100002" "user1002@mail.com" 0.
Definition pay_merchant_changed : record :=
  Record_ "T0000000" "A" "X" "merchant" (Float 999 0) "2025-01-02T00:00:00"
          "D100001" "L001" "P100001" "user1001@mail.com" 1.

Definition empty_graph : graph := Graph [] [].

End Loader.

(** ** src/run_algorithms.py

    The statements of steps 4 and 5 work on the User nodes and the
    properties the earlier steps wrote on them.  A property that is absent
    reads as [null], here [None]; a predicate is three-valued, and
    [SET u.p = null] removes [p].  The numbers are the engine's floats:
    their arithmetic, [round], [avg] and [stDev] are the engine's. *)
Module Risk.

Class Engine := {
  num : Type;
  num_of_Z : Z → num;
  num_add : num → num → num;
  num_mul : num → num → num;
  num_round : num → Z → num;
  (** [a <= b] in the order [ORDER BY] sorts by *)
  num_leb : num → num → bool;
  num_leb_total : ∀ a b, num_leb a b = true ∨ num_leb b a = true;
  num_leb_trans : ∀ a b c,
    num_leb a b = true → num_leb b c = true → num_leb a c = true;
  avg : list num → option num;
  stDev : list num → option num
}.

(** [a > b] *)
Definition num_gtb `{Engine} (a b : num) : bool := negb (num_leb a b).

Section Rules.
Context `{Engine}.

Record user := UserNode {
  id : string;
  pr : option num;
  degree : option num;
  triangles : option Z;
  community : option Z;
  coUsers : option Z;
  suspicious : option bool;
  highRisk : option bool
}.

(** Cypher's [OR] and [AND] on true, false and null. *)
Definition or3 (a b : option bool) : option bool :=
  match a, b with
  | Some true, _ | _, Some true => Some true
  | Some false, Some false => Some false
  | _, _ => None
  end.

Definition and3 (a b : option bool) : option bool :=
  match a, b with
  | Some false, _ | _, Some false => Some false
  | Some true, Some true => Some true
  | _, _ => None
  end.

Definition coalesce {A} (a : option A) (d : A) : A := default d a.

(** [u.pr > meanPR + k*sdPR] *)
Definition above (meanPR sdPR : option num) (k : Z) (u : user)
  : option bool :=
  x ← pr u; m ← meanPR; sd ← sdPR;
  Some (num_gtb x (num_add m (num_mul (num_of_Z k) sd))).

(** [MATCH (u:User) WITH avg(u.pr) AS meanPR, stDev(u.pr) AS sdPR]:
    the aggregates skip the nodes without [pr]. *)
Definition meanPR (users : list user) : option num := avg (omap pr users).
Definition sdPR (users : list user) : option num := stDev (omap pr users).

(** The value [SET u.suspicious = ...] writes. *)
Definition suspicious_value (m sd : option num) (u : user) : option bool :=
  or3 (or3 (above m sd 3 u)
           (Some (bool_decide (2 ≤ coalesce (coUsers u) 0))))
      (Some (bool_decide (2 ≤ coalesce (triangles u) 0))).

Definition set_suspicious (v : option bool) (u : user) : user :=
  UserNode (id u) (pr u) (degree u) (triangles u) (community u) (coUsers u)
           v (highRisk u).

(** Step 4, first statement. *)
Definition run_suspicious (users : list user) : list user :=
  let m := meanPR users in
  let sd := sdPR users in
  (λ u, set_suspicious (suspicious_value m sd u) u) <$> users.

(** The [WHERE] of the second statement. *)
Definition highRisk_where (m sd : option num) (u : user) : option bool :=
  and3 ((λ b, bool_decide (b = true)) <$> suspicious u)
       (or3 (Some (bool_decide (4 ≤ coalesce (coUsers u) 0)))
            (above m sd 2 u)).

Definition set_highRisk (u : user) : user :=
  UserNode (id u) (pr u) (degree u) (triangles u) (community u) (coUsers u)
           (suspicious u) (Some true).

(** Step 4, second statement: only the rows that pass [WHERE] are
    written. *)
Definition run_highRisk (users : list user) : list user :=
  let m := meanPR users in
  let sd := sdPR users in
  (λ u, if decide (highRisk_where m sd u = Some true)
        then set_highRisk u else u) <$> users.

Definition run_rules (users : list user) : list user :=
  run_highRisk (run_suspicious users).

(** Step 5: a row of the export. *)
Record risk_row := RiskRow {
  r_user : string;
  r_highRisk : bool;
  r_coUsers : Z;
  r_pr : num;
  r_degree : num;
  r_triangles : Z;
  r_community : Z
}.

Definition export_where (u : user) : option bool :=
  or3 ((λ b, bool_decide (b = true)) <$> suspicious u)
      ((λ b, bool_decide (b = true)) <$> highRisk u).

Definition export_row (u : user) : risk_row :=
  RiskRow (id u)
          (coalesce (highRisk u) false)
          (coalesce (coUsers u) 0)
          (num_round (coalesce (pr u) (num_of_Z 0)) 6)
          (coalesce (degree u) (num_of_Z 0))
          (coalesce (triangles u) 0)
          (coalesce (community u) (-1)).

(** [ORDER BY highRisk DESC, coUsers DESC, pr DESC]: [before a b] when
    [a] may stand before [b].  [false < true] in Cypher's order. *)
Definition before (a b : risk_row) : Prop :=
  if decide (r_highRisk a = r_highRisk b) then
    if decide (r_coUsers a = r_coUsers b) then
      num_leb (r_pr b) (r_pr a) = true
    else r_coUsers b < r_coUsers a
  else r_highRisk a = true.

Global Instance before_dec : RelDecision before.
Proof. intros a b. unfold before. repeat case_decide; apply _. Defined.

Definition LIMIT : nat := 1000.

Definition export (users : list user) : list risk_row :=
  take LIMIT
    (merge_sort before
       (export_row <$> filter (λ u, export_where u = Some true) users)).

(** What the two statements of step 4 leave on one node. *)
Definition scored (m sd : option num) (u : user) : user :=
  let u' := set_suspicious (suspicious_value m sd u) u in
  if decide (highRisk_where m sd u' = Some true) then set_highRisk u' else u'.

(** The spec's two predicates, on the features of a node. *)
Definition suspicious_spec (m sd : option num) (u : user) : Prop :=
  above m sd 3 u = Some true ∨ 2 ≤ coalesce (coUsers u) 0
  ∨ 2 ≤ coalesce (triangles u) 0.

Definition highRisk_spec (m sd : option num) (u : user) : Prop :=
  suspicious_spec m sd u ∧
  (4 ≤ coalesce (coUsers u) 0 ∨ above m sd 2 u = Some true).

(** The rows of the flagged users, before sorting. *)
Definition candidates (users : list user) : list risk_row :=
  export_row <$> filter (λ u, export_where u = Some true) users.

(** The export in the spec's words: who is exported, what a row shows of
    its user, and which of two rows stands first. *)
Definition spec_flagged (u : user) : Prop :=
  suspicious u = Some true ∨ highRisk u = Some true.

Global Instance spec_flagged_dec u : Decision (spec_flagged u).
Proof. unfold spec_flagged. apply _. Defined.

(** The row carries the user's id and each feature the node has; a
    missing flag reads false, a missing number 0, a missing community
    -1; PageRank is shown to six places. *)
Definition spec_shows (u : user) (row : risk_row) : Prop :=
  r_user row = id u ∧
  r_highRisk row = match highRisk u with Some b => b | None => false end ∧
  r_coUsers row = match coUsers u with Some c => c | None => 0 end ∧
  r_pr row
  = num_round (match pr u with Some x => x | None => num_of_Z 0 end) 6 ∧
  r_degree row = match degree u with Some x => x | None => num_of_Z 0 end ∧
  r_triangles row = match triangles u with Some t => t | None => 0 end ∧
  r_community row = match community u with Some c => c | None => -1 end.

(** High-risk before the rest; among equals, more co-users first; among
    equals again, the higher PageRank first. *)
Definition spec_ranks (a b : risk_row) : Prop :=
  (r_highRisk a = true ∧ r_highRisk b = false) ∨
  (r_highRisk a = r_highRisk b ∧
   (r_coUsers b < r_coUsers a ∨
    (r_coUsers a = r_coUsers b ∧ num_leb (r_pr b) (r_pr a) = true))).

End Rules.

(** An engine over the integers, for examples: [avg] is the mean rounded
    down, [stDev] the integer square root of the sample variance. *)
Definition z_sum (l : list Z) : Z := foldr Z.add 0 l.
Definition z_avg (l : list Z) : option Z :=
  match l with [] => None | _ => Some (z_sum l / Z.of_nat (length l)) end.
Definition z_stDev (l : list Z) : option Z :=
  match z_avg l with
  | None => Some 0
  | Some m =>
      if decide (length l ≤ 1)%nat then Some 0
      else Some (Z.sqrt (z_sum ((λ x, (x - m) * (x - m)) <$> l)
                         / (Z.of_nat (length l) - 1)))
  end.

Definition ZEngine : Engine := {|
  num := Z;
  num_of_Z z := z;
  num_add := Z.add;
  num_mul := Z.mul;
  num_round x _ := x;
  num_leb := Z.leb;
  num_leb_total a b :=
    match Z.le_ge_cases a b with
    | or_introl h => or_introl (proj2 (Z.leb_le a b) h)
    | or_intror h => or_intror (proj2 (Z.leb_le b a) h)
    end;
  num_leb_trans a b c h1 h2 :=
    proj2 (Z.leb_le a c)
      (Z.le_trans a b c (proj1 (Z.leb_le a b) h1) (proj1 (Z.leb_le b c) h2));
  avg := z_avg;
  stDev := z_stDev
|}.

(** Two users with equal PageRank and no shared device or triangle; the
    first still carries the flags of an earlier scoring run. *)
Definition flagged_earlier : @user ZEngine :=
  @UserNode ZEngine "u1" (Some 5) (Some 1) (Some 0) (Some 0) None
           (Some true) (Some true).
Definition plain_user : @user ZEngine :=
  @UserNode ZEngine "u2" (Some 5) (Some 1) (Some 0) (Some 0) None None None.
(** A user the PageRank run did not reach, with three triangles. *)
Definition unranked_user : @user ZEngine :=
  @UserNode ZEngine "u4" None None (Some 3) None None None None.
(** A user with four co-users on a shared device, not scored before. *)
Definition ring_member : @user ZEngine :=
  @UserNode ZEngine "u3" (Some 5) (Some 1) (Some 0) (Some 0) (Some 4) None None.

End Risk.

(** ** src/run_algorithms.py, step 3: device co-users

    [MATCH (u:User)-[:USES_DEVICE]->(d:Device)<-[:USES_DEVICE]-(v:User)
     WHERE u <> v
     WITH u, count(DISTINCT v) AS coUsers
     SET u.coUsers = coUsers],
    on the graph of the loader. *)
Module CoUsers.
Import Loader.

Definition labelled (l : node_label) (g : graph) (i : nat) : bool :=
  match nodes g !! i with
  | Some n => has_label l n
  | None => false
  end.

(** [(u)-[:USES_DEVICE]->(d)] *)
Definition uses (g : graph) (u d : nat) : bool :=
  existsb (λ e, bool_decide (rtype e = USES_DEVICE ∧ src e = u ∧ dst e = d))
          (rels g).

(** The rows of [MATCH ... WHERE u <> v] for one [u]: a [v] per path. *)
Definition sharers (g : graph) (u : nat) : list nat :=
  d ← seq 0 (length (nodes g));
  v ← seq 0 (length (nodes g));
  if labelled User g u && labelled Device g d && labelled User g v
     && uses g u d && uses g v d && bool_decide (u ≠ v)
  then [v] else [].

(** [DISTINCT v] *)
Definition co_users (g : graph) (u : nat) : list nat :=
  remove_dups (sharers g u).

(** The value [SET] writes on [u]; a [u] with no row is not written. *)
Definition coUsers_written (g : graph) (u : nat) : option Z :=
  match co_users g u with
  | [] => None
  | vs => Some (Z.of_nat (length vs))
  end.

(** Three users on one device and a fourth on its own. *)
Definition shared_device_graph : graph :=
  Graph [Node [User] "u1"; Node [User] "u2"; Node [User] "u3";
         Node [User] "u4"; Node [Device] "D100000"; Node [Device] "D100001"]
        [Rel USES_DEVICE 0 4 None None; Rel USES_DEVICE 1 4 None None;
         Rel USES_DEVICE 2 4 None None; Rel USES_DEVICE 3 5 None None].

End CoUsers.

(** * Properties *)

(** ** The loader: what a batch can change *)
Module LoaderFacts.
Import PyFloat Loader.

Lemma keeps_refl g : keeps g g.
Proof. split; [done|]. intros i n Hn. exists n. done. Qed.

Lemma keeps_trans g1 g2 g3 : keeps g1 g2 → keeps g2 g3 → keeps g1 g3.
Proof.
  intros [Hr1 Hn1] [Hr2 Hn2]. split.
  - intros i e He. by apply Hr2, Hr1.
  - intros i n Hn.
    destruct (Hn1 i n Hn) as (n2 & Hn2' & Hid2 & Hu2 & Hm2).
    destruct (Hn2 i n2 Hn2') as (n3 & Hn3' & Hid3 & Hu3 & Hm3).
    exists n3. split; [done|]. split; [congruence|]. split; auto.
Qed.

Lemma keeps_append_node g n :
  keeps g (Graph (nodes g ++ [n]) (rels g)).
Proof.
  split; [done|]. intros i m Hm. exists m. simpl.
  split; [|done]. by apply lookup_app_l_Some.
Qed.

Lemma keeps_append_rel g e :
  keeps g (Graph (nodes g) (rels g ++ [e])).
Proof.
  split.
  - intros i e' He'. simpl. by apply lookup_app_l_Some.
  - intros i n Hn. exists n. done.
Qed.

Lemma merge_node_keeps lab created k g :
  keeps g (merge_node lab created k g).1.
Proof.
  unfold merge_node. destruct (find_nodes lab k g); simpl.
  - apply keeps_append_node.
  - apply keeps_refl.
Qed.

Lemma merge_node_rows_keeps {E} lab created (key : E → string) rows g :
  keeps g (merge_node_rows lab created key rows g).1.
Proof.
  revert g. induction rows as [|e rows IH]; intros g; simpl.
  - apply keeps_refl.
  - pose proof (merge_node_keeps lab created (key e) g) as H1.
    destruct (merge_node lab created (key e) g) as [g1 ms].
    pose proof (IH g1) as H2.
    destruct (merge_node_rows lab created key rows g1) as [g2 out].
    simpl in *. by eapply keeps_trans.
Qed.

Lemma filter_not_User_spec (ls : list node_label) l :
  l ∈ filter (λ l, l ≠ User) ls ↔ l ≠ User ∧ l ∈ ls.
Proof. by rewrite list_elem_of_filter. Qed.

Lemma set_merchant_keeps t g g' : set_merchant t g = Ok g' → keeps g g'.
Proof.
  unfold set_merchant. destruct (nodes g !! t) as [n|] eqn:Ht.
  2:{ intros [= <-]. apply keeps_refl. }
  assert (Hupd : ∀ ls,
    (User ∉ ls) → (Merchant ∈ labels n → Merchant ∈ ls) →
    keeps g (Graph (<[t := Node ls (id n)]> (nodes g)) (rels g))).
  { intros ls Hu Hm. split; [done|]. intros i m Hi. simpl.
    destruct (decide (i = t)) as [->|Hne].
    - exists (Node ls (id n)). rewrite list_lookup_insert_eq.
      2:{ by eapply lookup_lt_Some. }
      assert (m = n) as -> by congruence. simpl. auto.
    - exists m. rewrite list_lookup_insert_ne; [|done]. auto. }
  destruct (has_label Merchant n) eqn:Hm.
  - intros [= <-]. apply Hupd.
    + rewrite filter_not_User_spec. tauto.
    + intros Hin. rewrite filter_not_User_spec. done.
  - case_bool_decide; [|done]. intros [= <-]. apply Hupd.
    + rewrite elem_of_app, filter_not_User_spec, list_elem_of_singleton.
      intros [[? _]|[=]]. done.
    + intros _. rewrite elem_of_app, list_elem_of_singleton. by right.
Qed.

Lemma relabel_rows_keeps rows g g' : relabel_rows rows g = Ok g' → keeps g g'.
Proof.
  revert g. induction rows as [|[[r s] t] rows IH]; intros g; simpl.
  - intros [= <-]. apply keeps_refl.
  - case_bool_decide; [|by apply IH].
    destruct (set_merchant t g) as [g1|] eqn:H1; [|done].
    intros H2. eapply keeps_trans; [by eapply set_merchant_keeps|by apply IH].
Qed.

Lemma merge_rel_keeps ty k oc a b g : keeps g (merge_rel ty k oc a b g).
Proof.
  unfold merge_rel. destruct (existsb _ _).
  - apply keeps_refl.
  - apply keeps_append_rel.
Qed.

Lemma foldl_keeps {E} (f : graph → E → graph) rows g :
  (∀ g e, keeps g (f g e)) → keeps g (foldl f g rows).
Proof.
  intros Hf. revert g. induction rows as [|e rows IH]; intros g; simpl.
  - apply keeps_refl.
  - eapply keeps_trans; [apply Hf|apply IH].
Qed.

Lemma merge_resource_keeps lab ty key rows g :
  keeps g (merge_resource lab ty key rows g).1.
Proof.
  unfold merge_resource.
  pose proof (merge_node_rows_keeps (Some lab) [lab]
                (λ e : record * nat * nat, key e.1.1) rows g) as H1.
  destruct (merge_node_rows _ _ _ rows g) as [g1 rows1]. simpl in *.
  eapply keeps_trans; [exact H1|].
  apply foldl_keeps. intros. apply merge_rel_keeps.
Qed.

Lemma merge_transaction_keeps rows g : keeps g (merge_transaction rows g).
Proof. apply foldl_keeps. intros. apply merge_rel_keeps. Qed.

Lemma load_batch_keeps g rows g' : load_batch g rows = Ok g' → keeps g g'.
Proof.
  unfold load_batch.
  pose proof (merge_node_rows_keeps (Some User) [User] sender_id rows g) as H1.
  destruct (merge_node_rows _ _ sender_id rows g) as [g1 rows1].
  pose proof (merge_node_rows_keeps None [User]
                (λ e : record * nat, receiver_id e.1) rows1 g1) as H2.
  destruct (merge_node_rows None _ _ rows1 g1) as [g2 rows2].
  destruct (relabel_rows rows2 g2) as [g3|] eqn:H3; [|done].
  apply relabel_rows_keeps in H3.
  pose proof (merge_resource_keeps Device USES_DEVICE sender_device_id rows2 g3) as H4.
  destruct (merge_resource Device _ _ rows2 g3) as [g4 rows4].
  pose proof (merge_resource_keeps Location LOCATED_IN sender_location rows4 g4) as H5.
  destruct (merge_resource Location _ _ rows4 g4) as [g5 rows5].
  pose proof (merge_resource_keeps Phone HAS_PHONE sender_phone rows5 g5) as H6.
  destruct (merge_resource Phone _ _ rows5 g5) as [g6 rows6].
  pose proof (merge_resource_keeps Email HAS_EMAIL sender_email rows6 g6) as H7.
  destruct (merge_resource Email _ _ rows6 g6) as [g7 rows7].
  intros [= <-]. simpl in *.
  repeat (eapply keeps_trans; [eassumption|]).
  apply merge_transaction_keeps.
Qed.

Lemma execute_write_keeps g rows : keeps g (execute_write g rows).
Proof.
  unfold execute_write. destruct (load_batch g rows) eqn:Hl.
  - by eapply load_batch_keeps.
  - apply keeps_refl.
Qed.

(** *** One relationship per key *)

Lemma existsb_rel_matches ty k a b (es : list rel) :
  existsb (rel_matches ty k a b) es = false → (ty, a, b, k) ∉ rel_key <$> es.
Proof.
  intros Hex Hin. apply list_elem_of_fmap in Hin as (e & Hk & He).
  assert (existsb (rel_matches ty k a b) es = true) as Ht; [|congruence].
  apply existsb_exists. exists e. split; [by apply list_elem_of_In|].
  unfold rel_matches. apply bool_decide_eq_true.
  unfold rel_key in Hk. by simplify_eq.
Qed.

Lemma merge_rel_single ty k oc a b g :
  single_edges g → single_edges (merge_rel ty k oc a b g).
Proof.
  unfold single_edges, merge_rel. intros Hnd.
  destruct (existsb _ _) eqn:Hex; [done|]. simpl.
  rewrite fmap_app. apply NoDup_app. split; [done|]. split.
  - intros x Hx Hx'. apply list_elem_of_singleton in Hx' as ->.
    by apply (existsb_rel_matches ty k a b (rels g)).
  - apply NoDup_singleton.
Qed.

Lemma merge_node_rows_rels {E} lab created (key : E → string) rows g :
  rels (merge_node_rows lab created key rows g).1 = rels g.
Proof.
  revert g. induction rows as [|e rows IH]; intros g; simpl; [done|].
  unfold merge_node at 1.
  destruct (find_nodes lab (key e) g) as [|m ms].
  - specialize (IH (Graph (nodes g ++ [Node created (key e)]) (rels g))).
    destruct (merge_node_rows _ _ _ rows _). simpl in *. done.
  - specialize (IH g). destruct (merge_node_rows _ _ _ rows g). done.
Qed.

Lemma set_merchant_rels t g g' : set_merchant t g = Ok g' → rels g' = rels g.
Proof.
  unfold set_merchant. destruct (nodes g !! t); [|by intros [= <-]].
  destruct (has_label _ _); [by intros [= <-]|].
  case_bool_decide; [by intros [= <-]|done].
Qed.

Lemma relabel_rows_rels rows g g' : relabel_rows rows g = Ok g' → rels g' = rels g.
Proof.
  revert g. induction rows as [|[[r s] t] rows IH]; intros g; simpl.
  - by intros [= <-].
  - case_bool_decide; [|by apply IH].
    destruct (set_merchant t g) as [g1|] eqn:H1; [|done].
    intros H2. rewrite (IH _ H2). by eapply set_merchant_rels.
Qed.

Lemma foldl_single {E} (f : graph → E → graph) rows g :
  (∀ g e, single_edges g → single_edges (f g e)) →
  single_edges g → single_edges (foldl f g rows).
Proof.
  intros Hf. revert g. induction rows as [|e rows IH]; intros g Hg; simpl.
  - done.
  - apply IH, Hf, Hg.
Qed.

Lemma merge_resource_single lab ty key rows g :
  single_edges g → single_edges (merge_resource lab ty key rows g).1.
Proof.
  unfold merge_resource. intros Hg.
  pose proof (merge_node_rows_rels (Some lab) [lab]
                (λ e : record * nat * nat, key e.1.1) rows g) as Hr.
  destruct (merge_node_rows _ _ _ rows g) as [g1 rows1]. simpl in *.
  apply foldl_single; [intros; by apply merge_rel_single|].
  unfold single_edges. by rewrite Hr.
Qed.

Lemma load_batch_single g rows g' :
  load_batch g rows = Ok g' → single_edges g → single_edges g'.
Proof.
  unfold load_batch. intros Hl Hg.
  pose proof (merge_node_rows_rels (Some User) [User] sender_id rows g) as H1.
  destruct (merge_node_rows _ _ sender_id rows g) as [g1 rows1].
  pose proof (merge_node_rows_rels None [User]
                (λ e : record * nat, receiver_id e.1) rows1 g1) as H2.
  destruct (merge_node_rows None _ _ rows1 g1) as [g2 rows2].
  destruct (relabel_rows rows2 g2) as [g3|] eqn:H3; [|done].
  apply relabel_rows_rels in H3. simpl in *.
  assert (single_edges g3) as Hg3.
  { unfold single_edges. by rewrite H3, H2, H1. }
  pose proof (merge_resource_single Device USES_DEVICE sender_device_id rows2 g3 Hg3) as H4.
  destruct (merge_resource Device _ _ rows2 g3) as [g4 rows4].
  pose proof (merge_resource_single Location LOCATED_IN sender_location rows4 g4 H4) as H5.
  destruct (merge_resource Location _ _ rows4 g4) as [g5 rows5].
  pose proof (merge_resource_single Phone HAS_PHONE sender_phone rows5 g5 H5) as H6.
  destruct (merge_resource Phone _ _ rows5 g5) as [g6 rows6].
  pose proof (merge_resource_single Email HAS_EMAIL sender_email rows6 g6 H6) as H7.
  destruct (merge_resource Email _ _ rows6 g6) as [g7 rows7].
  injection Hl as <-. simpl in *.
  apply foldl_single; [intros; by apply merge_rel_single|done].
Qed.

(** X8. A graph in which no two relationships share type, end nodes and
    [txid] stays so through any batch: a transaction that is ingested
    again between the same two nodes adds no second edge. *)
Theorem execute_write_single_edges g rows :
  single_edges g → single_edges (execute_write g rows).
Proof.
  intros Hg. unfold execute_write.
  destruct (load_batch g rows) eqn:Hl; [by eapply load_batch_single|done].
Qed.

Lemma execute_write_single_edges_witness :
  single_edges (execute_write empty_graph
                  [pay_merchant; pay_merchant_changed; merchant_pays]).
Proof.
  apply (execute_write_single_edges empty_graph
           [pay_merchant; pay_merchant_changed; merchant_pays]).
  unfold single_edges. simpl. constructor.
Defined.

(** *** The uniqueness constraints *)

Lemma elem_of_find_from lab k off ns i :
  i ∈ find_from lab k off ns ↔
  ∃ n, (off ≤ i)%nat ∧ ns !! (i - off)%nat = Some n ∧ id n = k ∧
       match lab with Some l => l ∈ labels n | None => True end.
Proof.
  revert off. induction ns as [|m ns IH]; intros off; simpl.
  - split; [intros Hin; by apply elem_of_nil in Hin|]. by intros (n & _ & ? & _).
  - rewrite elem_of_app, IH. split.
    + intros [Hhd|(n & Hle & Hn & Hid & Hlab)].
      * destruct (bool_decide (id m = k)) eqn:Hk; simpl in Hhd;
          [|by apply elem_of_nil in Hhd].
        apply bool_decide_eq_true in Hk.
        destruct lab as [l|].
        -- unfold has_label in Hhd. case_bool_decide;
             [|by apply elem_of_nil in Hhd].
           apply list_elem_of_singleton in Hhd as ->.
           exists m. rewrite Nat.sub_diag. done.
        -- apply list_elem_of_singleton in Hhd as ->.
           exists m. rewrite Nat.sub_diag. done.
      * exists n. split; [lia|]. split; [|done].
        replace (i - off)%nat with (S (i - S off)) by lia. done.
    + intros (n & Hle & Hn & Hid & Hlab).
      destruct (decide (i = off)) as [->|Hne].
      * left. rewrite Nat.sub_diag in Hn. simpl in Hn. injection Hn as ->.
        rewrite bool_decide_eq_true_2 by done. simpl.
        destruct lab as [l|].
        -- unfold has_label. rewrite bool_decide_eq_true_2 by done. left.
        -- left.
      * right. exists n. split; [lia|]. split; [|done].
        replace (i - off)%nat with (S (i - S off)) in Hn by lia. done.
Qed.

Lemma elem_of_find_nodes lab k g i :
  i ∈ find_nodes lab k g ↔
  ∃ n, nodes g !! i = Some n ∧ id n = k ∧
       match lab with Some l => l ∈ labels n | None => True end.
Proof.
  unfold find_nodes. rewrite elem_of_find_from, Nat.sub_0_r.
  split; [intros (n & _ & ?); by exists n|].
  intros (n & ?). exists n. split; [lia|done].
Qed.

Lemma find_nodes_nil lab k g i n :
  find_nodes lab k g = [] → nodes g !! i = Some n → id n = k →
  match lab with Some l => l ∈ labels n | None => True end → False.
Proof.
  intros Hnil Hn Hid Hlab.
  assert (i ∈ find_nodes lab k g) as Hin.
  { apply elem_of_find_nodes. by exists n. }
  rewrite Hnil in Hin. by apply elem_of_nil in Hin.
Qed.

Lemma constrained_nodes g g' :
  nodes g' = nodes g → constrained g → constrained g'.
Proof. unfold constrained. by intros ->. Qed.

Lemma merge_node_constrained lab created k g :
  (∀ l, l ∈ created → lab = None ∨ lab = Some l) →
  constrained g → constrained (merge_node lab created k g).1.
Proof.
  intros Hcr Hg. unfold merge_node.
  destruct (find_nodes lab k g) as [|m ms] eqn:Hf; [|done]. simpl.
  assert (Hnew : ∀ i ni l, nodes g !! i = Some ni → l ∈ created →
                 l ∈ labels ni → id ni = k → False).
  { intros i ni l Hi Hl Hli Hid.
    apply (find_nodes_nil lab k g i ni Hf Hi Hid).
    destruct (Hcr l Hl) as [->| ->]; done. }
  intros i j ni nj l Hi Hj Hli Hlj Hid. simpl in Hi, Hj.
  apply lookup_app_Some in Hi as [Hi|[Hil Hi]];
    apply lookup_app_Some in Hj as [Hj|[Hjl Hj]].
  - by eapply Hg.
  - exfalso. apply list_lookup_singleton_Some in Hj as [_ <-]. simpl in *.
    by eapply (Hnew i ni l).
  - exfalso. apply list_lookup_singleton_Some in Hi as [_ <-]. simpl in *.
    by eapply (Hnew j nj l).
  - apply list_lookup_singleton_Some in Hi as [Hi _].
    apply list_lookup_singleton_Some in Hj as [Hj _]. lia.
Qed.

Lemma merge_node_rows_constrained {E} lab created (key : E → string) rows g :
  (∀ l, l ∈ created → lab = None ∨ lab = Some l) →
  constrained g → constrained (merge_node_rows lab created key rows g).1.
Proof.
  intros Hcr. revert g. induction rows as [|e rows IH]; intros g Hg; simpl.
  - done.
  - pose proof (merge_node_constrained lab created (key e) g Hcr Hg) as H1.
    destruct (merge_node lab created (key e) g) as [g1 ms].
    specialize (IH g1 H1).
    destruct (merge_node_rows lab created key rows g1) as [g2 out]. done.
Qed.

Lemma relabel_node_constrained t n ls g :
  nodes g !! t = Some n →
  (∀ l, l ∈ ls → l ∈ labels n ∨
     ∀ j nj, nodes g !! j = Some nj → l ∈ labels nj → id nj = id n → False) →
  constrained g →
  constrained (Graph (<[t := Node ls (id n)]> (nodes g)) (rels g)).
Proof.
  intros Ht Hls Hg i j ni nj l Hi Hj Hli Hlj Hid. simpl in Hi, Hj.
  pose proof (lookup_lt_Some _ _ _ Ht) as Hlt.
  destruct (decide (i = t)) as [->|Hit], (decide (j = t)) as [->|Hjt];
    [done| | |].
  - rewrite list_lookup_insert_eq in Hi by done. injection Hi as <-.
    rewrite list_lookup_insert_ne in Hj by done. simpl in *.
    destruct (Hls l Hli) as [Hold|Hnone].
    + by eapply (Hg t j n nj l).
    + exfalso. by eapply (Hnone j nj).
  - rewrite list_lookup_insert_eq in Hj by done. injection Hj as <-.
    rewrite list_lookup_insert_ne in Hi by done. simpl in *.
    destruct (Hls l Hlj) as [Hold|Hnone].
    + by eapply (Hg i t ni n l).
    + exfalso. by eapply (Hnone i ni).
  - rewrite list_lookup_insert_ne in Hi by done.
    rewrite list_lookup_insert_ne in Hj by done.
    by eapply Hg.
Qed.

Lemma set_merchant_constrained t g g' :
  set_merchant t g = Ok g' → constrained g → constrained g'.
Proof.
  unfold set_merchant. destruct (nodes g !! t) as [n|] eqn:Ht;
    [|by intros [= <-]].
  destruct (has_label Merchant n) eqn:Hm.
  - intros [= <-] Hg. apply relabel_node_constrained; [done| |done].
    intros l Hl. left. apply filter_not_User_spec in Hl. tauto.
  - case_bool_decide as Hf; [|done].
    intros [= <-] Hg. apply relabel_node_constrained; [done| |done].
    intros l Hl. apply elem_of_app in Hl as [Hl|Hl].
    + left. apply filter_not_User_spec in Hl. tauto.
    + right. apply list_elem_of_singleton in Hl as ->.
      intros j nj Hj Hlj Hid.
      by apply (find_nodes_nil (Some Merchant) (id n) g j nj).
Qed.

Lemma relabel_rows_constrained rows g g' :
  relabel_rows rows g = Ok g' → constrained g → constrained g'.
Proof.
  revert g. induction rows as [|[[r s] t] rows IH]; intros g; simpl.
  - by intros [= <-].
  - case_bool_decide; [|by apply IH].
    destruct (set_merchant t g) as [g1|] eqn:H1; [|done].
    intros H2 Hg. apply (IH _ H2). by eapply set_merchant_constrained.
Qed.

Lemma foldl_merge_rel_nodes {E} (f : E → rel_type * option string
    * option tx_props * nat * nat) rows g :
  nodes (foldl (λ g e, let '(ty, k, oc, a, b) := f e in
                       merge_rel ty k oc a b g) g rows) = nodes g.
Proof.
  revert g. induction rows as [|e rows IH]; intros g; simpl; [done|].
  rewrite IH. destruct (f e) as [[[[ty k] oc] a] b].
  unfold merge_rel. by destruct (existsb _ _).
Qed.

Lemma merge_resource_constrained lab ty key rows g :
  constrained g → constrained (merge_resource lab ty key rows g).1.
Proof.
  unfold merge_resource. intros Hg.
  pose proof (merge_node_rows_constrained (Some lab) [lab]
                (λ e : record * nat * nat, key e.1.1) rows g) as H1.
  destruct (merge_node_rows _ _ _ rows g) as [g1 rows1]. simpl in *.
  eapply constrained_nodes; [|apply H1; [|done]].
  - apply (foldl_merge_rel_nodes
             (λ e : record * nat * nat * nat, (ty, None, None, e.1.1.2, e.2))).
  - intros l Hl. apply list_elem_of_singleton in Hl as ->. by right.
Qed.

Lemma load_batch_constrained g rows g' :
  load_batch g rows = Ok g' → constrained g → constrained g'.
Proof.
  unfold load_batch. intros Hl Hg.
  pose proof (merge_node_rows_constrained (Some User) [User] sender_id rows g) as H1.
  destruct (merge_node_rows _ _ sender_id rows g) as [g1 rows1].
  pose proof (merge_node_rows_constrained None [User]
                (λ e : record * nat, receiver_id e.1) rows1 g1) as H2.
  destruct (merge_node_rows None _ _ rows1 g1) as [g2 rows2].
  destruct (relabel_rows rows2 g2) as [g3|] eqn:H3; [|done].
  simpl in *.
  assert (constrained g3) as Hg3.
  { eapply relabel_rows_constrained; [done|].
    apply H2; [by left|]. apply H1; [|done].
    intros l Hl'. apply list_elem_of_singleton in Hl' as ->. by right. }
  pose proof (merge_resource_constrained Device USES_DEVICE sender_device_id rows2 g3 Hg3) as H4.
  destruct (merge_resource Device _ _ rows2 g3) as [g4 rows4].
  pose proof (merge_resource_constrained Location LOCATED_IN sender_location rows4 g4 H4) as H5.
  destruct (merge_resource Location _ _ rows4 g4) as [g5 rows5].
  pose proof (merge_resource_constrained Phone HAS_PHONE sender_phone rows5 g5 H5) as H6.
  destruct (merge_resource Phone _ _ rows5 g5) as [g6 rows6].
  pose proof (merge_resource_constrained Email HAS_EMAIL sender_email rows6 g6 H6) as H7.
  destruct (merge_resource Email _ _ rows6 g6) as [g7 rows7].
  injection Hl as <-. simpl in *.
  eapply constrained_nodes; [|exact H7].
  apply (foldl_merge_rel_nodes
           (λ e : record * nat * nat,
              (TRANSACTS_WITH, Some (transaction_id e.1.1),
               Some (TxProps (amount e.1.1) (timestamp e.1.1) (label e.1.1)),
               e.1.2, e.2))).
Qed.

(** X9. A graph that meets the six uniqueness constraints meets them after
    any batch: a node is created only for a pattern nothing matched, and
    [SET t:Merchant] fails rather than make a second Merchant with an id. *)
Theorem execute_write_constrained g rows :
  constrained g → constrained (execute_write g rows).
Proof.
  intros Hg. unfold execute_write.
  destruct (load_batch g rows) eqn:Hl; [by eapply load_batch_constrained|done].
Qed.

Lemma execute_write_constrained_witness :
  constrained (execute_write empty_graph [pay_merchant; merchant_pays]).
Proof.
  apply (execute_write_constrained empty_graph [pay_merchant; merchant_pays]).
  intros i j ni nj l Hi. simpl in Hi. rewrite lookup_nil in Hi. discriminate.
Defined.

(** *** Batching *)

Lemma batches_from_concat fuel i rows :
  (length rows ≤ fuel + i)%nat →
  concat (batches_from fuel i rows) = drop i rows.
Proof.
  revert i. induction fuel as [|fuel IH]; intros i Hf; simpl.
  - rewrite decide_False by lia. symmetry. apply drop_ge. lia.
  - case_decide as Hi; [|symmetry; apply drop_ge; lia].
    simpl. rewrite IH by (unfold BATCH_SIZE; lia).
    rewrite <- drop_drop. apply take_drop.
Qed.

Lemma batches_from_sizes fuel i rows :
  Forall (λ b, 1 ≤ length b ≤ BATCH_SIZE)%nat (batches_from fuel i rows).
Proof.
  revert i. induction fuel as [|fuel IH]; intros i; simpl.
  - case_decide; constructor.
  - case_decide as Hi; [|constructor].
    constructor; [|apply IH].
    rewrite length_take, length_drop. unfold BATCH_SIZE. lia.
Qed.

Lemma ceil_div_step d :
  (0 < d)%nat →
  S ((d - 500 + 499) `div` 500) = ((d + 499) `div` 500)%nat.
Proof.
  intros Hd. destruct (decide (d < 500)%nat) as [Hlt|Hge].
  - replace (d - 500 + 499)%nat with 499%nat by lia.
    rewrite (Nat.div_small 499 500) by lia.
    apply (Nat.div_unique (d + 499) 500 1 (d - 1)); lia.
  - replace (d + 499)%nat with (d - 500 + 499 + 1 * 500)%nat by lia.
    rewrite Nat.div_add by lia. lia.
Qed.

Lemma batches_from_length fuel i rows :
  (length rows ≤ fuel + i)%nat →
  length (batches_from fuel i rows)
  = ((length rows - i + 499) `div` 500)%nat.
Proof.
  revert i. induction fuel as [|fuel IH]; intros i Hf;
    cbn [batches_from].
  - rewrite decide_False by lia.
    replace (length rows - i)%nat with 0%nat by lia. reflexivity.
  - case_decide as Hi.
    + cbn [length]. rewrite IH by (unfold BATCH_SIZE; lia).
      replace (length rows - (i + BATCH_SIZE))%nat
        with (length rows - i - 500)%nat by (unfold BATCH_SIZE; lia).
      apply ceil_div_step. lia.
    + replace (length rows - i)%nat with 0%nat by lia. reflexivity.
Qed.

(** X11. The batches of [main] are the rows cut in order, none lost and none
    twice; each has between 1 and 500 rows; and there are as many as the
    count [total // 500 + (1 if total % 500 else 0)] the progress line
    shows. *)
Theorem batches_partition rows :
  concat (batches_of rows) = rows ∧
  Forall (λ b, 1 ≤ length b ≤ BATCH_SIZE)%nat (batches_of rows) ∧
  length (batches_of rows) = batches (length rows).
Proof.
  unfold batches_of. split; [|split].
  - rewrite batches_from_concat by lia. done.
  - apply batches_from_sizes.
  - rewrite batches_from_length by lia. unfold batches, BATCH_SIZE.
    rewrite Nat.sub_0_r.
    pose proof (Nat.div_mod_eq (length rows) 500) as Hd.
    pose proof (Nat.mod_upper_bound (length rows) 500 ltac:(lia)) as Hm.
    set (q := (length rows `div` 500)%nat) in *.
    set (r := (length rows `mod` 500)%nat) in *.
    case_decide as Hr.
    + symmetry. apply (Nat.div_unique _ 500 _ 499); lia.
    + symmetry. apply (Nat.div_unique _ 500 _ (r - 1)); lia.
Qed.

Lemma run_batches_keeps g bs : keeps g (run_batches g bs).1.
Proof.
  revert g. induction bs as [|b bs IH]; intros g; simpl.
  - apply keeps_refl.
  - destruct (load_batch g b) as [g1|] eqn:Hl; [|apply keeps_refl].
    eapply keeps_trans; [by eapply load_batch_keeps|apply IH].
Qed.

Lemma run_batches_invariants g bs :
  constrained g → single_edges g →
  constrained (run_batches g bs).1 ∧ single_edges (run_batches g bs).1.
Proof.
  revert g. induction bs as [|b bs IH]; intros g Hc Hs; simpl; [done|].
  destruct (load_batch g b) as [g1|] eqn:Hl; [|done].
  apply IH; [by eapply load_batch_constrained|by eapply load_batch_single].
Qed.

(** X12. The whole run, finished or stopped by a failed batch: whatever the
    graph had is kept (relationships with their properties, nodes with
    their id, Merchant labels, absence of User), and a graph that met the
    uniqueness constraints with one relationship per key still does. *)
Theorem main_loop_invariants g rows :
  constrained g → single_edges g →
  keeps g (main_loop g rows).1 ∧
  constrained (main_loop g rows).1 ∧
  single_edges (main_loop g rows).1.
Proof.
  intros Hc Hs. split; [apply run_batches_keeps|].
  by apply run_batches_invariants.
Qed.

Lemma main_loop_invariants_witness :
  keeps empty_graph (main_loop empty_graph [pay_merchant; merchant_pays]).1 ∧
  constrained (main_loop empty_graph [pay_merchant; merchant_pays]).1 ∧
  single_edges (main_loop empty_graph [pay_merchant; merchant_pays]).1.
Proof.
  apply (main_loop_invariants empty_graph [pay_merchant; merchant_pays]).
  - intros i j ni nj l Hi. simpl in Hi. rewrite lookup_nil in Hi. discriminate.
  - unfold single_edges. simpl. constructor.
Defined.

(** *** Every record gets its transaction *)

Lemma keeps_bound g g' k m : keeps g g' → bound_to g k m → bound_to g' k m.
Proof.
  intros [_ Hk] (n & Hn & Hid).
  destruct (Hk m n Hn) as (n' & Hn' & Hid' & _). exists n'. split; congruence.
Qed.

Lemma merge_node_bound lab created k g :
  (merge_node lab created k g).2 ≠ [] ∧
  ∀ m, m ∈ (merge_node lab created k g).2 →
       bound_to (merge_node lab created k g).1 k m.
Proof.
  unfold merge_node. destruct (find_nodes lab k g) as [|m0 ms] eqn:Hf; simpl.
  - split; [done|]. intros m Hm. apply list_elem_of_singleton in Hm as ->.
    exists (Node created k). split; [|done]. cbn [nodes fst].
    rewrite lookup_app_r, Nat.sub_diag by lia. done.
  - split; [done|]. intros m Hm. rewrite <- Hf in Hm.
    apply elem_of_find_nodes in Hm as (n & Hn & Hid & _). by exists n.
Qed.

Lemma merge_node_rows_table {E} lab created (key : E → string) rows g :
  (∀ e m, (e, m) ∈ (merge_node_rows lab created key rows g).2 →
     e ∈ rows ∧ bound_to (merge_node_rows lab created key rows g).1 (key e) m)
  ∧ (∀ e, e ∈ rows → ∃ m, (e, m) ∈ (merge_node_rows lab created key rows g).2).
Proof.
  revert g. induction rows as [|e0 rows IH]; intros g; simpl.
  - split; [intros e m Hin; by apply elem_of_nil in Hin|].
    intros e Hin. by apply elem_of_nil in Hin.
  - destruct (merge_node_bound lab created (key e0) g) as [Hne Hb].
    destruct (merge_node lab created (key e0) g) as [g1 ms]. simpl in *.
    pose proof (merge_node_rows_keeps lab created key rows g1) as Hk.
    destruct (IH g1) as [IH1 IH2].
    destruct (merge_node_rows lab created key rows g1) as [g2 out].
    simpl in *. split.
    + intros e m Hin. apply elem_of_app in Hin as [Hin|Hin].
      * apply list_elem_of_fmap in Hin as (m' & [= -> ->] & Hm').
        split; [left|]. eapply keeps_bound; [done|]. by apply Hb.
      * destruct (IH1 e m Hin). split; [by right|done].
    + intros e Hin. apply elem_of_cons in Hin as [->|Hin].
      * destruct ms as [|m ms]; [done|]. exists m.
        apply elem_of_app. left. apply list_elem_of_fmap. exists m.
        split; [done|left].
      * destruct (IH2 e Hin) as [m Hm]. exists m.
        apply elem_of_app. by right.
Qed.

Lemma set_merchant_marks t g g' n :
  set_merchant t g = Ok g' → nodes g !! t = Some n →
  ∃ n', nodes g' !! t = Some n' ∧ Merchant ∈ labels n' ∧ User ∉ labels n'.
Proof.
  unfold set_merchant. intros Hs Ht. rewrite Ht in Hs.
  pose proof (lookup_lt_Some _ _ _ Ht) as Hlt.
  destruct (has_label Merchant n) eqn:Hm.
  - injection Hs as <-. simpl. rewrite list_lookup_insert_eq by done.
    eexists. split; [done|]. simpl.
    unfold has_label in Hm. apply bool_decide_eq_true in Hm.
    rewrite !filter_not_User_spec. split; [done|tauto].
  - case_bool_decide; [|done]. injection Hs as <-. simpl.
    rewrite list_lookup_insert_eq by done.
    eexists. split; [done|]. simpl.
    rewrite !elem_of_app, !filter_not_User_spec, !list_elem_of_singleton.
    split; [by right|]. intros [[? _]|[=]]. done.
Qed.

Lemma relabel_rows_marks rows g g' r s t :
  relabel_rows rows g = Ok g' → (r, s, t) ∈ rows →
  receiver_type r = "merchant"%string → is_Some (nodes g !! t) →
  ∃ n', nodes g' !! t = Some n' ∧ Merchant ∈ labels n' ∧ User ∉ labels n'.
Proof.
  revert g. induction rows as [|[[r0 s0] t0] rows IH]; intros g Hr Hin Hty Ht.
  - by apply elem_of_nil in Hin.
  - simpl in Hr. apply elem_of_cons in Hin as [[= <- <- <-]|Hin].
    + rewrite bool_decide_eq_true_2 in Hr by done.
      destruct (set_merchant t g) as [g1|] eqn:H1; [|done].
      destruct Ht as [n Hn].
      destruct (set_merchant_marks t g g1 n H1 Hn) as (n1 & Hn1 & Hm1 & Hu1).
      destruct (relabel_rows_keeps rows g1 g' Hr) as [_ Hk].
      destruct (Hk t n1 Hn1) as (n' & Hn' & _ & Hu' & Hm').
      exists n'. auto.
    + case_bool_decide.
      * destruct (set_merchant t0 g) as [g1|] eqn:H1; [|done].
        apply (IH g1 Hr Hin Hty).
        destruct Ht as [n Hn].
        destruct (set_merchant_keeps t0 g g1 H1) as [_ Hk].
        destruct (Hk t n Hn) as (n' & Hn' & _). by exists n'.
      * by apply (IH g Hr Hin Hty).
Qed.

Lemma merge_resource_table lab ty key rows g e :
  e ∈ (merge_resource lab ty key rows g).2 ↔ e ∈ rows.
Proof.
  unfold merge_resource.
  destruct (merge_node_rows_table (Some lab) [lab]
              (λ e : record * nat * nat, key e.1.1) rows g) as [H1 H2].
  destruct (merge_node_rows _ _ _ rows g) as [g1 rows1]. simpl in *.
  rewrite list_elem_of_fmap. split.
  - intros ([e' m] & -> & Hin). simpl. by destruct (H1 e' m Hin).
  - intros Hin. destruct (H2 e Hin) as [m Hm]. by exists (e, m).
Qed.

Lemma merge_rel_has ty k oc a b g :
  (ty, a, b, k) ∈ rel_key <$> rels (merge_rel ty k oc a b g).
Proof.
  unfold merge_rel. destruct (existsb _ _) eqn:Hex.
  - apply existsb_exists in Hex as (e & He & Hm).
    apply list_elem_of_fmap. exists e. split; [|by apply list_elem_of_In].
    unfold rel_matches in Hm. apply bool_decide_eq_true in Hm.
    unfold rel_key. destruct Hm as (-> & -> & -> & ->). done.
  - simpl. rewrite fmap_app, elem_of_app. right. simpl. left.
Qed.

Lemma keeps_rel_key g g' x :
  keeps g g' → x ∈ rel_key <$> rels g → x ∈ rel_key <$> rels g'.
Proof.
  intros [Hr _] Hin. apply list_elem_of_fmap in Hin as (e & -> & He).
  apply list_elem_of_lookup in He as [i Hi].
  apply list_elem_of_fmap. exists e. split; [done|].
  eapply list_elem_of_lookup_2. by apply Hr.
Qed.

Lemma merge_transaction_has rows g r s t :
  (r, s, t) ∈ rows →
  (TRANSACTS_WITH, s, t, Some (transaction_id r))
  ∈ rel_key <$> rels (merge_transaction rows g).
Proof.
  unfold merge_transaction. revert g.
  induction rows as [|e rows IH]; intros g Hin.
  - by apply elem_of_nil in Hin.
  - simpl. apply elem_of_cons in Hin as [<-|Hin]; [|by apply IH].
    simpl. eapply keeps_rel_key; [|apply merge_rel_has].
    apply foldl_keeps. intros. apply merge_rel_keeps.
Qed.

(** X10. After a batch is committed, every record of it has a TRANSACTS_WITH
    relationship with its transaction id, from a node with the sender's
    id to a node with the receiver's id; and when the record declares the
    receiver a merchant, that node carries Merchant and not User. *)
Theorem load_batch_records_transaction g rows g' r :
  load_batch g rows = Ok g' → r ∈ rows →
  ∃ e, e ∈ rels g' ∧ rtype e = TRANSACTS_WITH ∧
       txid e = Some (transaction_id r) ∧
       bound_to g' (sender_id r) (src e) ∧
       bound_to g' (receiver_id r) (dst e) ∧
       (receiver_type r = "merchant"%string →
        ∃ n, nodes g' !! dst e = Some n ∧ Merchant ∈ labels n
             ∧ User ∉ labels n).
Proof.
  unfold load_batch. intros Hl Hr.
  destruct (merge_node_rows_table (Some User) [User] sender_id rows g)
    as [T1 C1].
  pose proof (merge_node_rows_keeps (Some User) [User] sender_id rows g) as K1.
  destruct (merge_node_rows _ _ sender_id rows g) as [g1 rows1].
  destruct (merge_node_rows_table None [User]
              (λ e : record * nat, receiver_id e.1) rows1 g1) as [T2 C2].
  pose proof (merge_node_rows_keeps None [User]
                (λ e : record * nat, receiver_id e.1) rows1 g1) as K2.
  destruct (merge_node_rows None _ _ rows1 g1) as [g2 rows2].
  destruct (relabel_rows rows2 g2) as [g3|] eqn:H3; [|done].
  pose proof (relabel_rows_keeps _ _ _ H3) as K3.
  pose proof (merge_resource_keeps Device USES_DEVICE sender_device_id rows2 g3) as K4.
  pose proof (merge_resource_table Device USES_DEVICE sender_device_id rows2 g3) as M4.
  destruct (merge_resource Device _ _ rows2 g3) as [g4 rows4].
  pose proof (merge_resource_keeps Location LOCATED_IN sender_location rows4 g4) as K5.
  pose proof (merge_resource_table Location LOCATED_IN sender_location rows4 g4) as M5.
  destruct (merge_resource Location _ _ rows4 g4) as [g5 rows5].
  pose proof (merge_resource_keeps Phone HAS_PHONE sender_phone rows5 g5) as K6.
  pose proof (merge_resource_table Phone HAS_PHONE sender_phone rows5 g5) as M6.
  destruct (merge_resource Phone _ _ rows5 g5) as [g6 rows6].
  pose proof (merge_resource_keeps Email HAS_EMAIL sender_email rows6 g6) as K7.
  pose proof (merge_resource_table Email HAS_EMAIL sender_email rows6 g6) as M7.
  destruct (merge_resource Email _ _ rows6 g6) as [g7 rows7].
  injection Hl as <-. simpl in *.
  destruct (C1 r Hr) as [s Hs].
  destruct (C2 (r, s) Hs) as [t Ht].
  destruct (T1 r s Hs) as [_ Bs].
  destruct (T2 (r, s) t Ht) as [_ Bt]. simpl in Bt.
  assert ((r, s, t) ∈ rows7) as Hin7.
  { apply M7, M6, M5, M4, Ht. }
  pose proof (merge_transaction_keeps rows7 g7) as K8.
  assert (keeps g3 (merge_transaction rows7 g7)) as K38.
  { repeat (eapply keeps_trans; [eassumption|]). apply keeps_refl. }
  assert (keeps g2 (merge_transaction rows7 g7)) as K28.
  { by eapply keeps_trans. }
  pose proof (merge_transaction_has rows7 g7 r s t Hin7) as Hkey.
  apply list_elem_of_fmap in Hkey as (e & Hk & He).
  unfold rel_key in Hk. injection Hk as Hty Hsrc Hdst Htx.
  exists e. split; [done|]. split; [done|]. split; [done|].
  rewrite <- Hsrc, <- Hdst.
  split; [|split].
  - eapply keeps_bound; [exact K28|]. eapply keeps_bound; [exact K2|done].
  - by eapply keeps_bound.
  - intros Hm.
    destruct (relabel_rows_marks rows2 g2 g3 r s t H3 Ht Hm) as (n3 & Hn3 & Hm3 & Hu3).
    { destruct Bt as (n & Hn & _). by exists n. }
    destruct K38 as [_ Kn].
    destruct (Kn t n3 Hn3) as (n' & Hn' & _ & Hu' & Hm').
    exists n'. auto.
Qed.

Lemma load_batch_records_transaction_witness :
  ∃ e, e ∈ rels (execute_write empty_graph [pay_merchant; merchant_pays]) ∧
       rtype e = TRANSACTS_WITH ∧
       txid e = Some (transaction_id pay_merchant) ∧
       bound_to (execute_write empty_graph [pay_merchant; merchant_pays])
         (sender_id pay_merchant) (src e) ∧
       bound_to (execute_write empty_graph [pay_merchant; merchant_pays])
         (receiver_id pay_merchant) (dst e) ∧
       (receiver_type pay_merchant = "merchant"%string →
        ∃ n, nodes (execute_write empty_graph [pay_merchant; merchant_pays])
               !! dst e = Some n ∧ Merchant ∈ labels n ∧ User ∉ labels n).
Proof.
  apply (load_batch_records_transaction empty_graph
           [pay_merchant; merchant_pays]).
  - vm_compute. reflexivity.
  - left.
Defined.

(** C5. Create-only transaction properties: a relationship the graph
    already has, in particular a TRANSACTS_WITH edge with its [txid], is
    still there with the same amount, timestamp and label after any batch is
    ingested, whatever the records of the batch carry for that
    transaction id. *)
Theorem transaction_edge_create_only g rows i e :
  rels g !! i = Some e → rels (execute_write g rows) !! i = Some e.
Proof. intros He. by apply (execute_write_keeps g rows). Qed.

Lemma transaction_edge_create_only_witness :
  rels (execute_write (execute_write empty_graph [pay_merchant])
          [pay_merchant_changed]) !! 4%nat
  = Some (Rel TRANSACTS_WITH 0 1 (Some "T0000000"%string)
            (Some (TxProps (Float 181 0) "2025-01-01T01:00:00" 0))).
Proof.
  apply (transaction_edge_create_only
           (execute_write empty_graph [pay_merchant])
           [pay_merchant_changed] 4).
  vm_compute. reflexivity.
Defined.

(** C6. Role monotonicity: a node that carries Merchant and not User keeps
    its id, keeps Merchant and stays without User after any batch is
    ingested, whether its id comes as a receiver of either type or as a
    sender. *)
Theorem merchant_role_permanent g rows i n :
  nodes g !! i = Some n → Merchant ∈ labels n → User ∉ labels n →
  ∃ n', nodes (execute_write g rows) !! i = Some n' ∧ id n' = id n ∧
        Merchant ∈ labels n' ∧ User ∉ labels n'.
Proof.
  intros Hn Hm Hu.
  destruct (execute_write_keeps g rows) as [_ Hk].
  destruct (Hk i n Hn) as (n' & Hn' & Hid & Hu' & Hm').
  exists n'. auto.
Qed.

Lemma merchant_role_permanent_witness :
  ∃ n', nodes (execute_write (execute_write empty_graph [pay_merchant])
                 [merchant_pays; pay_merchant]) !! 1%nat = Some n' ∧
        id n' = "X"%string ∧ Merchant ∈ labels n' ∧ User ∉ labels n'.
Proof.
  apply (merchant_role_permanent
           (execute_write empty_graph [pay_merchant])
           [merchant_pays; pay_merchant] 1 (Node [Merchant] "X")).
  - vm_compute. reflexivity.
  - simpl. apply list_elem_of_singleton. reflexivity.
  - simpl. rewrite list_elem_of_singleton. discriminate.
Defined.

(** The merchant node is left alone, but a sender with its id gets a User
    node of its own: two nodes then carry the id. *)
Example sender_twin_of_merchant :
  find_nodes None "X"
    (execute_write (execute_write empty_graph [pay_merchant])
       [merchant_pays]) = [1; 6]%nat.
Proof. vm_compute. reflexivity. Qed.

(** C7. The batch in which [X] is paid as a merchant and pays as a sender
    is ingested once into the empty graph; ingesting it again fails on the
    uniqueness constraint of Merchant ids. *)
Theorem reingest_batch_fails :
  ∃ g1, load_batch empty_graph [pay_merchant; merchant_pays] = Ok g1 ∧
        length (nodes g1) = 11%nat ∧
        load_batch g1 [pay_merchant; merchant_pays]
        = Err (ConstraintValidationFailed Merchant "X").
Proof.
  eexists. split; [vm_compute; reflexivity|].
  split; vm_compute; reflexivity.
Qed.

End LoaderFacts.

(** ** The risk rules and the export *)
Module RiskFacts.
Import Risk.

Section Rules.
Context `{Engine}.

Lemma omap_pr_fmap (f : user → user) (users : list user) :
  (∀ u, pr (f u) = pr u) → omap pr (f <$> users) = omap pr users.
Proof.
  intros Hf. induction users as [|u users IH]; [done|].
  csimpl. rewrite Hf, IH. done.
Qed.

Lemma meanPR_run_suspicious users :
  meanPR (run_suspicious users) = meanPR users.
Proof. unfold meanPR, run_suspicious. by rewrite omap_pr_fmap. Qed.

Lemma sdPR_run_suspicious users :
  sdPR (run_suspicious users) = sdPR users.
Proof. unfold sdPR, run_suspicious. by rewrite omap_pr_fmap. Qed.

Lemma run_rules_scored users :
  run_rules users = scored (meanPR users) (sdPR users) <$> users.
Proof.
  unfold run_rules, run_highRisk.
  rewrite meanPR_run_suspicious, sdPR_run_suspicious.
  unfold run_suspicious. rewrite <- list_fmap_compose. done.
Qed.

Lemma suspicious_value_spec m sd u :
  suspicious_value m sd u = Some true ↔ suspicious_spec m sd u.
Proof.
  unfold suspicious_value, suspicious_spec, or3.
  destruct (above m sd 3 u) as [[]|];
    repeat case_bool_decide; naive_solver.
Qed.

Lemma scored_suspicious m sd u :
  suspicious (scored m sd u) = Some true ↔ suspicious_spec m sd u.
Proof.
  unfold scored. case_decide; simpl; apply suspicious_value_spec.
Qed.

Lemma highRisk_where_spec m sd u :
  highRisk_where m sd (set_suspicious (suspicious_value m sd u) u) = Some true
  ↔ highRisk_spec m sd u.
Proof.
  unfold highRisk_where, highRisk_spec. simpl.
  rewrite <- suspicious_value_spec.
  assert (above m sd 2 (set_suspicious (suspicious_value m sd u) u)
          = above m sd 2 u) as -> by done.
  unfold and3, or3.
  destruct (suspicious_value m sd u) as [[]|]; simpl;
    destruct (above m sd 2 u) as [[]|];
    repeat case_bool_decide; naive_solver.
Qed.

Lemma scored_highRisk m sd u :
  highRisk (scored m sd u) = Some true
  ↔ highRisk_spec m sd u ∨ highRisk u = Some true.
Proof.
  unfold scored. case_decide as Hw; simpl.
  - apply highRisk_where_spec in Hw. naive_solver.
  - rewrite highRisk_where_spec in Hw. naive_solver.
Qed.

(** On a graph that was not scored before, the rules are the spec's:
    after step 4 a user is suspicious exactly under the three-way
    disjunction and high-risk exactly when suspicious and over one of the
    two high-risk thresholds. *)
Lemma run_rules_first_run users u' :
  Forall (λ u, highRisk u = None) users →
  u' ∈ run_rules users →
  ∃ u, u ∈ users ∧ id u' = id u ∧
    (suspicious u' = Some true ↔ suspicious_spec (meanPR users) (sdPR users) u) ∧
    (highRisk u' = Some true ↔ highRisk_spec (meanPR users) (sdPR users) u).
Proof.
  intros Hnew. rewrite run_rules_scored, list_elem_of_fmap.
  intros (u & -> & Hu). exists u. split; [done|].
  rewrite Forall_forall in Hnew. specialize (Hnew u Hu).
  split; [unfold scored; by case_decide|].
  split; [apply scored_suspicious|].
  rewrite scored_highRisk, Hnew. naive_solver.
Qed.

(** *** The export *)

Lemma export_where_spec u :
  export_where u = Some true
  ↔ suspicious u = Some true ∨ highRisk u = Some true.
Proof.
  unfold export_where, or3.
  destruct (suspicious u) as [[]|], (highRisk u) as [[]|]; simpl;
    repeat case_bool_decide; naive_solver.
Qed.

Global Instance before_total : Total before.
Proof.
  intros a b. unfold before.
  destruct (num_leb_total (r_pr a) (r_pr b)).
  all: repeat case_decide; try (left; done); try (right; done);
    try congruence; try lia.
  all: destruct (r_highRisk a), (r_highRisk b); try congruence; auto.
Qed.

Global Instance before_trans : Transitive before.
Proof.
  intros a b c. unfold before.
  pose proof (num_leb_trans (r_pr c) (r_pr b) (r_pr a)).
  destruct (r_highRisk a), (r_highRisk b), (r_highRisk c);
    repeat case_decide; try congruence; try lia; auto.
Qed.

Lemma export_take users :
  export users = take LIMIT (merge_sort before (candidates users)).
Proof. done. Qed.

Lemma export_sorted users : StronglySorted before (export users).
Proof.
  rewrite export_take.
  pose proof (StronglySorted_merge_sort before (candidates users)) as Hs.
  rewrite <- (take_drop LIMIT (merge_sort before (candidates users))) in Hs.
  by apply StronglySorted_app_1_l in Hs.
Qed.

Lemma StronglySorted_lookup {A} (R : relation A) l i j a b :
  StronglySorted R l → l !! i = Some a → l !! j = Some b → (i < j)%nat →
  R a b.
Proof.
  intros Hs. revert i j. induction Hs as [|x l Hs IH Hx]; intros i j Hi Hj Hlt.
  - done.
  - destruct j as [|j]; [lia|]. simpl in Hj.
    destruct i as [|i]; simpl in Hi.
    + injection Hi as <-. rewrite Forall_forall in Hx.
      apply Hx. by eapply list_elem_of_lookup_2.
    + apply (IH i j); [done|done|lia].
Qed.

Lemma export_from_flagged users row :
  row ∈ export users →
  ∃ u, u ∈ users ∧ (suspicious u = Some true ∨ highRisk u = Some true)
       ∧ row = export_row u.
Proof.
  rewrite export_take. intros Hin. apply elem_of_take in Hin as (i & Hin & _).
  apply list_elem_of_lookup_2 in Hin.
  rewrite merge_sort_Permutation in Hin. unfold candidates in Hin.
  apply list_elem_of_fmap in Hin as (u & -> & Hu).
  apply list_elem_of_filter in Hu as [Hw Hu].
  exists u. by rewrite <- export_where_spec.
Qed.

Lemma export_highRisk_first users i j a b :
  export users !! i = Some a → export users !! j = Some b →
  r_highRisk a = true → r_highRisk b = false → (i < j)%nat.
Proof.
  intros Hi Hj Ha Hb.
  destruct (decide (i < j)%nat) as [|Hge]; [done|exfalso].
  destruct (decide (i = j)) as [->|Hne]; [congruence|].
  assert (before b a) as Hba.
  { eapply (StronglySorted_lookup before (export users) j i);
      [apply export_sorted|done|done|lia]. }
  unfold before in Hba. rewrite Ha, Hb in Hba.
  case_decide; congruence.
Qed.

Lemma spec_shows_export_row u row :
  spec_shows u row ↔ row = export_row u.
Proof.
  unfold spec_shows, export_row, coalesce. split.
  - intros (H1 & H2 & H3 & H4 & H5 & H6 & H7).
    destruct row as [a1 a2 a3 a4 a5 a6 a7]. simpl in *. subst.
    f_equal; by destruct u as [? [] [] [] [] [] ? []].
  - intros ->. simpl.
    by destruct u as [? [] [] [] [] [] ? []].
Qed.

Lemma before_spec_ranks a b : before a b ↔ spec_ranks a b.
Proof.
  unfold before, spec_ranks.
  destruct (r_highRisk a), (r_highRisk b); repeat case_decide;
    split; intros; try done; try lia; try congruence;
    try (left; done); try (right; split; [done|]; try (left; lia);
                           right; done);
    naive_solver lia.
Qed.

Lemma flagged_filter (users : list user) :
  filter (λ u, export_where u = Some true) users = filter spec_flagged users.
Proof. apply list_filter_iff. intros u. apply export_where_spec. Qed.

(** The users behind the sorted rows, in the rows' order. *)
Lemma sorted_users (users : list user) :
  ∃ sorted, merge_sort before (candidates users) = export_row <$> sorted
            ∧ sorted ≡ₚ filter spec_flagged users.
Proof.
  pose proof (merge_sort_Permutation before (candidates users)) as Hp.
  unfold candidates in Hp at 2. rewrite flagged_filter in Hp.
  apply Permutation_map_inv in Hp as (sorted & Hsorted & Hperm).
  exists sorted. split; [exact Hsorted|]. by symmetry.
Qed.

(** C8. Exactly the flagged users are exported, up to the cap: the export
    shows, row by row, a list [kept] of users that with a list [left_out]
    rearranges all the users flagged suspicious or high-risk; nobody is
    left out when at most 1000 are flagged, and a user left out ranks
    after every row exported.  A row carries its user's id and features,
    a missing number reading 0, a missing community -1 and a missing
    high-risk flag false.  Along the export the high-risk rows come
    first, then the co-user counts fall, then, at equal counts, the
    PageRank as shown (rounded to six places) falls.  The rows number
    min(1000, flagged). *)
Theorem export_ranked_and_capped (users : list user) :
  let flagged := filter spec_flagged users in
  (∃ kept left_out,
     kept ++ left_out ≡ₚ flagged ∧
     Forall2 spec_shows kept (export users) ∧
     (∀ u row row', u ∈ left_out → spec_shows u row' →
        row ∈ export users → spec_ranks row row') ∧
     ((length flagged ≤ 1000)%nat → left_out = [])) ∧
  (∀ u, u ∈ users → spec_flagged u → (length flagged ≤ 1000)%nat →
     ∃ row, row ∈ export users ∧ spec_shows u row) ∧
  (∀ row, row ∈ export users →
     ∃ u, u ∈ users ∧ spec_flagged u ∧ spec_shows u row) ∧
  (∀ i j a b, (i < j)%nat →
     export users !! i = Some a → export users !! j = Some b →
     spec_ranks a b ∧
     (r_highRisk a = false → r_highRisk b = false) ∧
     (r_highRisk a = r_highRisk b → r_coUsers b ≤ r_coUsers a) ∧
     (r_highRisk a = r_highRisk b → r_coUsers a = r_coUsers b →
      num_leb (r_pr b) (r_pr a) = true)) ∧
  length (export users) = (1000 `min` length flagged)%nat ∧
  (length (export users) ≤ 1000)%nat ∧
  (∀ i j a b, export users !! i = Some a → export users !! j = Some b →
     r_highRisk a = true → r_highRisk b = false → (i < j)%nat).
Proof.
  intros flagged.
  destruct (sorted_users users) as (sorted & Hsorted & Hperm).
  fold flagged in Hperm.
  pose proof (StronglySorted_merge_sort before (candidates users)) as Hs.
  rewrite Hsorted, <- (take_drop LIMIT sorted), fmap_app in Hs.
  assert (Hexp : export users = export_row <$> take LIMIT sorted).
  { by rewrite export_take, Hsorted, fmap_take. }
  assert (Hlen : length (export users) = (1000 `min` length flagged)%nat).
  { rewrite Hexp, length_fmap, length_take. by rewrite Hperm. }
  split; [|split; [|split; [|split; [|split; [|split]]]]].
  - exists (take LIMIT sorted), (drop LIMIT sorted).
    split; [by rewrite take_drop|]. split; [|split].
    + rewrite Hexp. apply Forall2_fmap_r, Forall_Forall2_diag, Forall_forall.
      intros u _. by apply spec_shows_export_row.
    + intros u row row' Hu Hsh Hrow.
      apply spec_shows_export_row in Hsh as ->. apply before_spec_ranks.
      rewrite Hexp in Hrow.
      eapply (StronglySorted_app_1_elem_of before); [exact Hs|exact Hrow|].
      by apply list_elem_of_fmap_2.
    + intros Hle. apply drop_ge. by rewrite Hperm.
  - intros u Hu Hfl Hle. exists (export_row u).
    split; [|by apply spec_shows_export_row].
    rewrite Hexp, take_ge by (by rewrite Hperm).
    apply list_elem_of_fmap_2. rewrite Hperm.
    by apply list_elem_of_filter.
  - intros row Hrow.
    destruct (export_from_flagged users row Hrow) as (u & Hu & Hfl & ->).
    exists u. split; [done|]. split; [done|]. by apply spec_shows_export_row.
  - intros i j a b Hlt Hi Hj.
    assert (spec_ranks a b) as Hr.
    { apply before_spec_ranks.
      by eapply (StronglySorted_lookup before (export users) i j);
        [apply export_sorted| | |]. }
    split; [done|]. unfold spec_ranks in Hr.
    destruct (r_highRisk a), (r_highRisk b); naive_solver lia.
  - done.
  - rewrite Hlen. lia.
  - apply export_highRisk_first.
Qed.

(** *** What a scoring run leaves alone, and running it again *)

Lemma scored_features m sd u :
  id (scored m sd u) = id u ∧ pr (scored m sd u) = pr u ∧
  degree (scored m sd u) = degree u ∧
  triangles (scored m sd u) = triangles u ∧
  community (scored m sd u) = community u ∧
  coUsers (scored m sd u) = coUsers u.
Proof. unfold scored. case_decide; done. Qed.

(** X14. Step 4 writes the two flags only: the nodes stay in place with their
    id, PageRank, degree, triangle count, community and co-user count. *)
Theorem run_rules_keeps_features users i u :
  users !! i = Some u →
  ∃ u', run_rules users !! i = Some u' ∧
        id u' = id u ∧ pr u' = pr u ∧ degree u' = degree u ∧
        triangles u' = triangles u ∧ community u' = community u ∧
        coUsers u' = coUsers u.
Proof.
  intros Hu. rewrite run_rules_scored, list_lookup_fmap, Hu. simpl.
  eexists. split; [done|]. apply scored_features.
Qed.

(** X15. A high-risk flag is never taken back: a node that enters step 4 with
    [highRisk = true] leaves it with [highRisk = true], whatever its
    features are now. *)
Theorem run_rules_never_clears_highRisk users i u :
  users !! i = Some u → highRisk u = Some true →
  ∃ u', run_rules users !! i = Some u' ∧ highRisk u' = Some true.
Proof.
  intros Hu Hh. rewrite run_rules_scored, list_lookup_fmap, Hu. simpl.
  eexists. split; [done|]. apply scored_highRisk. by right.
Qed.

(** X16. A node without PageRank: the comparison is null, so [suspicious] is
    written [true] when one of the two counts reaches 2 and is removed
    otherwise; it is never written [false]. *)
Theorem run_rules_without_pr users i u :
  users !! i = Some u → pr u = None →
  ∃ u', run_rules users !! i = Some u' ∧
        suspicious u' ≠ Some false ∧
        (suspicious u' = Some true
         ↔ 2 ≤ coalesce (coUsers u) 0 ∨ 2 ≤ coalesce (triangles u) 0) ∧
        (suspicious u' = None
         ↔ ¬ (2 ≤ coalesce (coUsers u) 0 ∨ 2 ≤ coalesce (triangles u) 0)).
Proof.
  intros Hu Hpr. rewrite run_rules_scored, list_lookup_fmap, Hu. simpl.
  eexists. split; [done|].
  assert (suspicious (scored (meanPR users) (sdPR users) u)
          = suspicious_value (meanPR users) (sdPR users) u) as ->.
  { unfold scored. by case_decide. }
  unfold suspicious_value, above, or3. rewrite Hpr. simpl.
  repeat case_bool_decide; (split; [done|]); split; split;
    intros; try done; try tauto; try lia.
Qed.

Lemma scored_scored m sd u : scored m sd (scored m sd u) = scored m sd u.
Proof.
  destruct u as [i p dg tr cm co su hr].
  unfold scored, set_suspicious, set_highRisk, highRisk_where,
    suspicious_value, above. simpl.
  repeat (case_decide; simpl in *); try done; congruence.
Qed.

(** X17. Running the rules again on a graph whose features did not change
    changes nothing. *)
Theorem run_rules_idempotent users :
  run_rules (run_rules users) = run_rules users.
Proof.
  rewrite (run_rules_scored (run_rules users)).
  assert (meanPR (run_rules users) = meanPR users) as ->.
  { rewrite run_rules_scored. unfold meanPR.
    rewrite omap_pr_fmap; [done|]. intros u. apply scored_features. }
  assert (sdPR (run_rules users) = sdPR users) as ->.
  { rewrite run_rules_scored. unfold sdPR.
    rewrite omap_pr_fmap; [done|]. intros u. apply scored_features. }
  rewrite run_rules_scored, <- list_fmap_compose.
  apply list_fmap_ext. intros j u _. apply scored_scored.
Qed.

(** X18. Scoring then exporting a graph that was not scored before: every row
    is a user the rules make suspicious, and its high-risk column is the
    high-risk rule on that user. *)
Theorem export_after_first_run users row :
  Forall (λ u, highRisk u = None) users →
  row ∈ export (run_rules users) →
  ∃ u, u ∈ users ∧ r_user row = id u ∧
       suspicious_spec (meanPR users) (sdPR users) u ∧
       (r_highRisk row = true ↔ highRisk_spec (meanPR users) (sdPR users) u).
Proof.
  intros Hnew Hrow.
  apply export_from_flagged in Hrow as (u' & Hu' & Hflag & ->).
  destruct (run_rules_first_run users u' Hnew Hu') as (u & Hu & Hid & Hs & Hh).
  exists u. split; [done|]. split; [done|].
  assert (highRisk u' = Some true → suspicious u' = Some true) as Himp.
  { rewrite Hs, Hh. by intros [? _]. }
  split; [apply Hs; tauto|].
  rewrite <- Hh. unfold export_row, coalesce. simpl.
  destruct (highRisk u') as [[]|]; simpl; split; intros; done.
Qed.

End Rules.

Lemma run_rules_keeps_features_witness :
  ∃ u', run_rules [flagged_earlier; plain_user] !! 0%nat = Some u' ∧
        id u' = id flagged_earlier ∧ pr u' = pr flagged_earlier ∧
        degree u' = degree flagged_earlier ∧
        triangles u' = triangles flagged_earlier ∧
        community u' = community flagged_earlier ∧
        coUsers u' = coUsers flagged_earlier.
Proof.
  apply (run_rules_keeps_features (H:=ZEngine)
           [flagged_earlier; plain_user] 0 flagged_earlier).
  reflexivity.
Defined.

Lemma run_rules_never_clears_highRisk_witness :
  ∃ u', run_rules [flagged_earlier; plain_user] !! 0%nat = Some u' ∧
        highRisk u' = Some true.
Proof.
  apply (run_rules_never_clears_highRisk (H:=ZEngine)
           [flagged_earlier; plain_user] 0 flagged_earlier);
    reflexivity.
Defined.

Lemma run_rules_without_pr_witness :
  ∃ u', run_rules [unranked_user; ring_member] !! 0%nat = Some u' ∧
        suspicious u' ≠ Some false ∧
        (suspicious u' = Some true
         ↔ 2 ≤ coalesce (coUsers unranked_user) 0
           ∨ 2 ≤ coalesce (triangles unranked_user) 0) ∧
        (suspicious u' = None
         ↔ ¬ (2 ≤ coalesce (coUsers unranked_user) 0
              ∨ 2 ≤ coalesce (triangles unranked_user) 0)).
Proof.
  apply (run_rules_without_pr (H:=ZEngine)
           [unranked_user; ring_member] 0 unranked_user);
    reflexivity.
Defined.

Lemma export_after_first_run_witness :
  ∃ u, u ∈ [plain_user; ring_member] ∧
       r_user (@RiskRow ZEngine "u3" true 4 5 1 0 0) = id u ∧
       suspicious_spec (meanPR [plain_user; ring_member])
         (sdPR [plain_user; ring_member]) u ∧
       (r_highRisk (@RiskRow ZEngine "u3" true 4 5 1 0 0) = true
        ↔ highRisk_spec (meanPR [plain_user; ring_member])
            (sdPR [plain_user; ring_member]) u).
Proof.
  apply (export_after_first_run (H:=ZEngine) [plain_user; ring_member]).
  - repeat constructor.
  - apply (list_elem_of_lookup_2 _ 0%nat). vm_compute. reflexivity.
Defined.

(** C3. A user flagged high-risk by an earlier run keeps the flag when the
    rules are run again on features under which it is not even
    suspicious: the second statement only ever writes [true]. *)
Theorem stale_highRisk_survives :
  run_rules [flagged_earlier; plain_user] !! 0%nat
  = Some (@UserNode ZEngine "u1" (Some 5) (Some 1) (Some 0) (Some 0) None
            (Some false) (Some true)).
Proof. vm_compute. reflexivity. Qed.

End RiskFacts.

(** ** The generator *)
Module PyRandomFacts.
Import PyRandom.

Section Facts.
Context `{RandomGen}.

(** Whatever ran before, code that starts with [random.seed] behaves the
    same. *)
Lemma seed_forgets {A} (a : Z) (k : unit → Rand A) g1 g2 :
  bind (seed a) k g1 = bind (seed a) k g2.
Proof. done. Qed.

Lemma randint_range a b g : a ≤ b → a ≤ (randint a b g).1 ≤ b.
Proof.
  intros Hab. unfold randint, bind, ret.
  pose proof (randbelow_range (b - a + 1) g) as Hr.
  destruct (randbelow (b - a + 1) g) as [r g']. simpl in *. lia.
Qed.

Lemma insert_Permutation {A} (l : list A) j x y :
  l !! j = Some x → <[j:=y]> l ≡ₚ y :: delete j l.
Proof.
  intros Hj. pose proof (lookup_lt_Some _ _ _ Hj) as Hlt.
  rewrite insert_take_drop by done. rewrite delete_take_drop.
  by rewrite Permutation_middle.
Qed.

Lemma swap_lookup_Permutation {A} (x : list A) i j a b :
  x !! i = Some a → x !! j = Some b → <[i:=b]> (<[j:=a]> x) ≡ₚ x.
Proof.
  revert i j. induction x as [|h t IH]; intros [|i] [|j] Hi Hj;
    simpl in *; simplify_eq; try done.
  - rewrite (insert_Permutation t j b _ Hj).
    rewrite (delete_Permutation t j b Hj) at 2. apply perm_swap.
  - rewrite (insert_Permutation t i a _ Hi).
    rewrite (delete_Permutation t i a Hi) at 2. apply perm_swap.
  - apply perm_skip. by apply IH.
Qed.

Lemma swap_Permutation {A} (x : list A) i j : swap x i j ≡ₚ x.
Proof.
  unfold swap.
  destruct (x !! i) as [a|] eqn:Hi; [|done].
  destruct (x !! j) as [b|] eqn:Hj; [|done].
  by apply swap_lookup_Permutation.
Qed.

Lemma shuffle_from_Permutation {A} i (x : list A) g :
  (shuffle_from i x g).1 ≡ₚ x.
Proof.
  revert x g. induction i as [|i IH]; intros x g; [done|].
  cbn [shuffle_from]. unfold bind.
  destruct (randbelow (Z.of_nat (S i) + 1) g) as [j g'].
  rewrite IH. apply swap_Permutation.
Qed.

Lemma shuffle_Permutation {A} (x : list A) g : (shuffle x g).1 ≡ₚ x.
Proof. apply shuffle_from_Permutation. Qed.

(** Taking [pool[j]] out and moving the last element into its place. *)
Lemma pool_step_Permutation {A} (pool : list A) j x y :
  pool !! j = Some x → pool !! (length pool - 1)%nat = Some y →
  x :: take (length pool - 1) (<[j:=y]> pool) ≡ₚ pool.
Proof.
  intros Hj Hlast.
  destruct (decide (pool = [])) as [->|Hne]; [done|].
  destruct (exists_last Hne) as (init & z & ->).
  rewrite length_app in *. simpl in *.
  replace (length init + 1 - 1)%nat with (length init) in * by lia.
  rewrite lookup_app_r, Nat.sub_diag in Hlast by lia. simpl in Hlast.
  injection Hlast as ->.
  destruct (decide (j < length init)%nat) as [Hlt|Hge].
  - rewrite lookup_app_l in Hj by done.
    rewrite insert_app_l by done.
    rewrite take_app_length' by (by rewrite length_insert).
    rewrite (insert_Permutation init j x y Hj).
    rewrite (delete_Permutation init j x Hj) at 2.
    rewrite <- Permutation_cons_append. apply perm_swap.
  - pose proof (lookup_lt_Some _ _ _ Hj) as Hb. rewrite length_app in Hb.
    simpl in Hb. assert (j = length init) as -> by lia.
    rewrite lookup_app_r, Nat.sub_diag in Hj by lia. simpl in Hj.
    injection Hj as ->.
    rewrite insert_app_r_alt, Nat.sub_diag by lia. simpl.
    rewrite take_app_length. apply Permutation_cons_append.
Qed.

Lemma sample_pool_spec {A} k (pool : list A) g :
  (k ≤ length pool)%nat → NoDup pool →
  let r := (sample_pool pool k g).1 in
  length r = k ∧ NoDup r ∧ r ⊆ pool.
Proof.
  revert pool g. induction k as [|k IH]; intros pool g Hk Hnd; simpl.
  - split; [done|]. split; [constructor|]. set_solver.
  - unfold bind.
    pose proof (randbelow_range (Z.of_nat (length pool)) g) as Hr.
    destruct (randbelow (Z.of_nat (length pool)) g) as [j g']. simpl in Hr.
    assert (Z.to_nat j < length pool)%nat as Hj by lia.
    destruct (lookup_lt_is_Some_2 pool (Z.to_nat j) Hj) as [x Hx].
    destruct (lookup_lt_is_Some_2 pool (length pool - 1)) as [y Hy]; [lia|].
    rewrite Hx, Hy.
    pose proof (pool_step_Permutation pool _ x y Hx Hy) as Hp.
    set (pool' := take (length pool - 1) (<[Z.to_nat j:=y]> pool)) in *.
    assert (NoDup (x :: pool')) as Hnd' by (by rewrite Hp).
    apply NoDup_cons in Hnd' as [Hx' Hnd'].
    assert (length pool' = (length pool - 1)%nat) as Hlen.
    { apply Permutation_length in Hp. simpl in Hp. lia. }
    destruct (IH pool' g') as (Hl & Hn & Hs); [lia|done|].
    destruct (sample_pool pool' k g') as [rest g'']. simpl in *.
    split; [lia|]. split.
    + apply NoDup_cons. split; [|done]. intros Hin. apply Hx', Hs, Hin.
    + intros z Hz. rewrite <- Hp. apply elem_of_cons in Hz as [->|Hz].
      * left.
      * right. by apply Hs.
Qed.

Lemma redraw_spec fuel n sel j g j' :
  (redraw fuel n sel j g).1 = Some j' → 0 < n → 0 ≤ j < n →
  0 ≤ j' < n ∧ j' ∉ sel.
Proof.
  revert j g. induction fuel as [|fuel IH]; intros j g; simpl.
  - case_decide; [done|]. intros [= <-] Hn Hj. done.
  - case_decide; [|intros [= <-] Hn Hj; done].
    unfold bind. pose proof (randbelow_range n g) as Hr.
    destruct (randbelow n g) as [j1 g1]. simpl in Hr.
    intros Hj' Hn _. apply (IH j1 g1); [done|done|by apply Hr].
Qed.

(** More draws change nothing once the loop has ended. *)
Lemma redraw_mono fuel fuel' n sel j g j' :
  (redraw fuel n sel j g).1 = Some j' → (fuel ≤ fuel')%nat →
  redraw fuel' n sel j g = redraw fuel n sel j g.
Proof.
  revert fuel' j g. induction fuel as [|fuel IH]; intros fuel' j g; simpl.
  - case_decide; [done|]. intros _ _. destruct fuel'; simpl;
      by rewrite decide_False.
  - case_decide as Hj.
    + unfold bind. destruct fuel' as [|fuel']; [lia|]. simpl.
      rewrite decide_True by done. unfold bind.
      destruct (randbelow n g) as [j1 g1]. intros H1 Hle.
      apply IH; [done|lia].
    + intros _ _. destruct fuel'; simpl; by rewrite decide_False.
Qed.

Lemma sample_set_spec {A} fuel (pop : list A) sel k g r :
  (sample_set fuel pop sel k g).1 = Some r → NoDup pop →
  length r = k ∧ NoDup r ∧
  ∀ x, x ∈ r → ∃ j, (0 ≤ j) ∧ (j ∉ sel) ∧ pop !! Z.to_nat j = Some x.
Proof.
  intros Hr Hnd. revert sel g r Hr.
  induction k as [|k IH]; intros sel g r; simpl.
  - intros [= <-]. split; [done|]. split; [constructor|].
    intros x Hx. by apply elem_of_nil in Hx.
  - unfold bind.
    pose proof (randbelow_range (Z.of_nat (length pop)) g) as Hr0.
    destruct (randbelow (Z.of_nat (length pop)) g) as [j0 g0]. simpl in Hr0.
    pose proof (redraw_spec fuel (Z.of_nat (length pop)) sel j0 g0) as Hrd.
    destruct (redraw fuel (Z.of_nat (length pop)) sel j0 g0) as [[j|] g1];
      [|done]. simpl in Hrd.
    destruct (pop !! Z.to_nat j) as [x|] eqn:Hx; [|done].
    destruct (λ H1 H2, Hrd j eq_refl H1 H2) as [Hj Hsel].
    { destruct pop; [done|simpl; lia]. }
    { apply Hr0. destruct pop; [done|simpl; lia]. }
    specialize (IH ({[j]} ∪ sel) g1).
    destruct (sample_set fuel pop ({[j]} ∪ sel) k g1) as [[rest|] g2];
      [|done]. simpl in *.
    intros [= <-]. destruct (IH rest eq_refl) as (Hlen & Hndr & Hin).
    split; [simpl; lia|]. split.
    + apply NoDup_cons. split; [|done]. intros Hxr.
      destruct (Hin x Hxr) as (j' & Hj'0 & Hj' & Hx').
      apply Hj'. apply elem_of_union. left. apply elem_of_singleton.
      assert (Z.to_nat j' = Z.to_nat j) as Heq
        by (by eapply (NoDup_lookup pop)).
      lia.
    + intros y Hy. apply elem_of_cons in Hy as [->|Hy].
      * exists j. split; [lia|done].
      * destruct (Hin y Hy) as (j' & ? & Hj' & ?). exists j'.
        split; [done|]. split; [|done]. set_solver.
Qed.

Lemma sample_set_mono {A} fuel fuel' (pop : list A) sel k g r :
  (sample_set fuel pop sel k g).1 = Some r → (fuel ≤ fuel')%nat →
  sample_set fuel' pop sel k g = sample_set fuel pop sel k g.
Proof.
  intros Hr Hle. revert sel g r Hr.
  induction k as [|k IH]; intros sel g r; simpl; [done|].
  unfold bind.
  destruct (randbelow (Z.of_nat (length pop)) g) as [j0 g0].
  pose proof (redraw_mono fuel fuel' (Z.of_nat (length pop)) sel j0 g0) as Hm.
  destruct (redraw fuel (Z.of_nat (length pop)) sel j0 g0) as [[j|] g1] eqn:Hrd;
    [|done].
  rewrite (Hm j eq_refl Hle).
  destruct (pop !! Z.to_nat j) as [x|]; [|done].
  specialize (IH ({[j]} ∪ sel) g1).
  destruct (sample_set fuel pop ({[j]} ∪ sel) k g1) as [[rest|] g2] eqn:Hs;
    [|done].
  intros _. rewrite (IH rest eq_refl). done.
Qed.

(** [random.sample]: with [k] at most the population it never raises;
    what it returns has [k] elements of the population, no two from the
    same place; and it can only fail to return in the set branch. *)
Lemma sample_outcome {A} fuel (pop : list A) k g :
  (k ≤ length pop)%nat → NoDup pop →
  match (sample fuel pop k g).1 with
  | Returned r => length r = k ∧ NoDup r ∧ r ⊆ pop
  | ValueError => False
  | Unfinished => sample_setsize k < Z.of_nat (length pop)
  end.
Proof.
  intros Hk Hnd. unfold sample. rewrite decide_True by done.
  case_decide as Hsz.
  - unfold bind, ret.
    pose proof (sample_pool_spec k pop g Hk Hnd) as Hp.
    destruct (sample_pool pop k g) as [r g']. done.
  - unfold bind, ret.
    pose proof (sample_set_spec fuel pop ∅ k g) as Hs.
    destruct (sample_set fuel pop ∅ k g) as [[r|] g']; simpl in *; [|lia].
    destruct (Hs r eq_refl Hnd) as (Hlen & Hndr & Hin).
    split; [done|]. split; [done|].
    intros x Hx. destruct (Hin x Hx) as (j & _ & _ & Hj).
    by eapply list_elem_of_lookup_2.
Qed.

(** Once [random.sample] has returned, more draws give the same. *)
Lemma sample_mono {A} fuel fuel' (pop : list A) k g r :
  (sample fuel pop k g).1 = Returned r → (fuel ≤ fuel')%nat →
  sample fuel' pop k g = sample fuel pop k g.
Proof.
  unfold sample. case_decide; [|done]. case_decide; [done|].
  unfold bind, ret. intros Hr Hle.
  pose proof (sample_set_mono fuel fuel' pop ∅ k g) as Hm.
  destruct (sample_set fuel pop ∅ k g) as [[r'|] g']; [|done].
  by rewrite (Hm r' eq_refl Hle).
Qed.

Lemma redraw_keeps (P : rng → Prop) fuel n sel j g :
  (∀ n g, P g → P (randbelow n g).2) → P g →
  P (redraw fuel n sel j g).2.
Proof.
  intros HP. revert j g. induction fuel as [|fuel IH]; intros j g Hg; simpl.
  - by case_decide.
  - case_decide; [|done]. unfold bind.
    pose proof (HP n g Hg) as Hg1.
    destruct (randbelow n g) as [j1 g1]. by apply IH.
Qed.

Lemma sample_set_unfinished {A} (P : rng → Prop) fuel (pop : list A) sel k g :
  (∀ n g, P g → P (randbelow n g).2) → P g → pop ≠ [] →
  (sample_set fuel pop sel k g).1 = None →
  ∃ sel' j g', P g' ∧ (size sel' < size sel + k)%nat ∧
    (redraw fuel (Z.of_nat (length pop)) sel' j g').1 = None.
Proof.
  intros HP Hg Hne. revert sel g Hg.
  induction k as [|k IH]; intros sel g Hg; simpl; [done|].
  assert (0 < Z.of_nat (length pop)) as Hn.
  { destruct pop; [done|simpl; lia]. }
  unfold bind.
  pose proof (randbelow_range (Z.of_nat (length pop)) g Hn) as Hr0.
  pose proof (HP (Z.of_nat (length pop)) g Hg) as Hg0.
  destruct (randbelow (Z.of_nat (length pop)) g) as [j0 g0].
  simpl in Hr0, Hg0.
  pose proof (redraw_spec fuel (Z.of_nat (length pop)) sel j0 g0) as Hrd.
  pose proof (redraw_keeps P fuel (Z.of_nat (length pop)) sel j0 g0 HP Hg0)
    as Hg1.
  destruct (redraw fuel (Z.of_nat (length pop)) sel j0 g0) as [[j|] g1]
    eqn:Hre; simpl in Hg1.
  2: { intros _. exists sel, j0, g0. split; [done|]. split; [lia|].
       by rewrite Hre. }
  destruct (Hrd j eq_refl Hn Hr0) as [Hj Hsel].
  destruct (pop !! Z.to_nat j) as [x|] eqn:Hx.
  2: { apply lookup_ge_None in Hx. lia. }
  specialize (IH ({[j]} ∪ sel) g1 Hg1).
  destruct (sample_set fuel pop ({[j]} ∪ sel) k g1) as [[rest|] g2];
    [done|]. simpl.
  intros _. destruct (IH eq_refl) as (sel' & j' & g' & Hg' & Hsz & Hnone).
  exists sel', j', g'. split; [done|]. split; [|done].
  rewrite size_union, size_singleton in Hsz by set_solver. lia.
Qed.

Lemma sample_setsize_ge k : 21 ≤ sample_setsize k.
Proof.
  unfold sample_setsize. case_decide; [|done].
  pose proof (Z.log2_up_nonneg (3 * Z.of_nat k)).
  assert (0 ≤ (Z.log2_up (3 * Z.of_nat k) + 1) / 2)
    by (apply Z.div_pos; lia).
  pose proof (Z.pow_nonneg 4 ((Z.log2_up (3 * Z.of_nat k) + 1) / 2)
                ltac:(lia)).
  lia.
Qed.

(** When [random.sample] is still drawing, it is in the loop of one pick:
    the indices taken so far are fewer than [k] and every draw allowed
    fell on one of them. *)
Lemma sample_unfinished {A} (P : rng → Prop) fuel (pop : list A) k g :
  (∀ n g, P g → P (randbelow n g).2) → P g →
  (sample fuel pop k g).1 = Unfinished →
  sample_setsize k < Z.of_nat (length pop) ∧
  ∃ sel j g', P g' ∧ (size sel < k)%nat ∧
    (redraw fuel (Z.of_nat (length pop)) sel j g').1 = None.
Proof.
  intros HP Hg. unfold sample. case_decide; [|done].
  case_decide as Hsz.
  { unfold bind, ret. by destruct (sample_pool pop k g). }
  unfold bind, ret.
  pose proof (sample_set_unfinished P fuel pop ∅ k g HP Hg) as Hs.
  destruct (sample_set fuel pop ∅ k g) as [[r|] g1]; [done|].
  intros _. split; [lia|].
  destruct Hs as (sel & j & g' & Hg' & Hsize & Hnone); [|done|].
  { pose proof (sample_setsize_ge k). destruct pop; [simpl in *; lia|done]. }
  rewrite size_empty in Hsize. by exists sel, j, g'.
Qed.

End Facts.

(** On a tape, a loop that is still drawing has read selected indices
    only. *)
Lemma tape_redraw_none init fuel n sel j (t : tape) :
  (redraw (H:=TapeGen init) fuel n sel j t).1 = None →
  j ∈ sel ∧ ∀ i, (i < fuel)%nat → words t (pos t + i)%nat `mod` n ∈ sel.
Proof.
  revert j t. induction fuel as [|fuel IH]; intros j t; simpl.
  - case_decide; [|done]. intros _. split; [done|]. intros i Hi. lia.
  - case_decide; [|done]. unfold bind.
    cbn [randbelow TapeGen tape_next fst snd].
    intros Hnone. apply IH in Hnone as [Hj' Hrest]. simpl in Hrest.
    split; [done|]. intros [|i] Hi.
    + by rewrite Nat.add_0_r.
    + replace (pos t + S i)%nat with (S (pos t + i)) by lia.
      apply Hrest. lia.
Qed.

(** The counting generator meets every index within [n] draws, so a
    pick with an index left to take ends within them. *)
Lemma counting_redraw_returns a fuel n sel j p :
  0 < n → (Z.to_nat n ≤ fuel)%nat → (size sel < Z.to_nat n)%nat →
  (redraw (H:=CountGen) fuel n sel j
     (Tape (λ i, a + Z.of_nat i) p)).1 ≠ None.
Proof.
  intros Hn Hfuel Hsize Hnone.
  apply tape_redraw_none in Hnone as [_ Hall]. simpl in Hall.
  assert (list_to_set (seqZ 0 n) ⊆ sel) as Hsub.
  { intros x Hx. apply elem_of_list_to_set, elem_of_seqZ in Hx.
    specialize (Hall (Z.to_nat ((x - (a + Z.of_nat p)) `mod` n))).
    pose proof (Z.mod_pos_bound (x - (a + Z.of_nat p)) n Hn) as Hb.
    replace ((a + Z.of_nat (p + Z.to_nat ((x - (a + Z.of_nat p)) `mod` n)))
             `mod` n) with x in Hall.
    { apply Hall. lia. }
    rewrite Nat2Z.inj_add, Z2Nat.id by lia.
    rewrite Z.add_assoc, Zplus_mod_idemp_r.
    replace (a + Z.of_nat p + (x - (a + Z.of_nat p))) with x by lia.
    symmetry. apply Z.mod_small. lia. }
  apply subseteq_size in Hsub.
  rewrite size_list_to_set, length_seqZ in Hsub by apply NoDup_seqZ.
  lia.
Qed.

End PyRandomFacts.

(** ** Floats *)
Module PyFloatFacts.
Import PyFloat Preprocess.

(** [int(n * 0.16)] is the integer part of 4n/25: the constant is
    (4 * 2^55 + 3) / (25 * 2^55), and neither its excess over 0.16 nor the
    rounding of the product reaches the next integer. *)
Lemma int_mul_merchant_rate n :
  0 ≤ n < 2 ^ 49 → int_mul n MERCHANT_RATE = 4 * n / 25.
Proof.
  intros Hn. unfold int_mul, round53, MERCHANT_RATE. cbn [mant expo].
  set (M := 5764607523034235).
  set (P := n * M).
  set (s := Z.max 0 (Z.log2 P + 1 - 53)).
  assert (0 ≤ P < 2 ^ 102) as HP.
  { subst P M. change (2 ^ 102) with (2 ^ 49 * 2 ^ 53).
    change (2 ^ 49) with 562949953421312 in *.
    change (2 ^ 53) with 9007199254740992. nia. }
  assert (0 ≤ s ≤ 49) as Hs.
  { subst s. destruct (decide (P = 0)) as [->|HP0]; [simpl; lia|].
    assert (Z.log2 P < 102) by (apply Z.log2_lt_pow2; lia). lia. }
  set (T := 2 ^ s).
  set (U := 2 ^ (55 - s)).
  assert (T * U = 2 ^ 55) as HTU.
  { subst T U. rewrite <- Z.pow_add_r by lia. f_equal. lia. }
  assert (1 ≤ T ≤ 2 ^ 49) as HT.
  { subst T. split; [apply (Z.pow_le_mono_r 2 0 s); lia|].
    apply Z.pow_le_mono_r; lia. }
  assert (0 < U) as HU by (subst U; apply Z.pow_pos_nonneg; lia).
  change (2 ^ 55) with 36028797018963968 in HTU.
  change (2 ^ 49) with 562949953421312 in *.
  assert (25 * P = 4 * n * 36028797018963968 + 3 * n) as HM by (subst P M; lia).
  set (t := 4 * n / 25).
  assert (25 * t ≤ 4 * n < 25 * t + 25) as Ht.
  { subst t. pose proof (Z.div_mod (4 * n) 25 ltac:(lia)).
    pose proof (Z.mod_pos_bound (4 * n) 25 ltac:(lia)). lia. }
  pose proof (Z.div_mod P T ltac:(lia)) as Hdm.
  pose proof (Z.mod_pos_bound P T ltac:(lia)) as Hr.
  set (q := P / T) in *. set (r := P `mod` T) in *.
  assert (t * U ≤ q) as Hlo.
  { destruct (decide (t * U ≤ q)) as [|Hc]; [done|exfalso].
    assert ((q + 1) * T ≤ t * U * T) by (apply Z.mul_le_mono_nonneg_r; lia).
    nia. }
  assert (q + 2 ≤ (t + 1) * U) as Hhi.
  { destruct (decide (q + 2 ≤ (t + 1) * U)) as [|Hc]; [done|exfalso].
    assert (((t + 1) * U - 1) * T ≤ q * T) by (apply Z.mul_le_mono_nonneg_r; lia).
    nia. }
  cbv beta iota zeta.
  match goal with
  | |- context [if ?b then q + 1 else q] => set (m := if b then q + 1 else q)
  end.
  assert (q ≤ m ≤ q + 1) as Hm by (subst m; destruct (_ || _); lia).
  rewrite decide_False by lia.
  replace (- (s + -55)) with (55 - s) by lia. fold U.
  symmetry. apply (Z.div_unique m U t (m - U * t)); [left; nia|lia].
Qed.

(** The rounding of [round53] against the IEEE 754 model of the standard
    library, on receiver counts around multiples of 25 and at the sample
    cap. *)
Example int_mul_agrees_with_ieee :
  Forall (λ n, int_mul n MERCHANT_RATE = int_mul_ieee n MERCHANT_RATE)
    [0; 1; 6; 7; 10; 24; 25; 26; 49; 50; 51; 99; 100; 101; 9999; 10000;
     99999; 100000; 123456789; 2 ^ 48 + 1].
Proof. repeat constructor. Qed.

End PyFloatFacts.

(** ** The attribute synthesizer *)
Module PreprocessFacts.
Import PyRandom PyRandomFacts PyFloatFacts Preprocess.

Section Facts.
Context `{RandomGen}.

(** *** Determinism *)

Lemma assign_devices_reseeds out g1 g2 :
  assign_devices out g1 = assign_devices out g2.
Proof. reflexivity. Qed.

Lemma assign_merchants_reseeds fuel out g1 g2 :
  assign_merchants fuel out g1 = assign_merchants fuel out g2.
Proof. reflexivity. Qed.

Lemma assign_locations_and_contacts_reseeds out g1 g2 :
  assign_locations_and_contacts out g1 = assign_locations_and_contacts out g2.
Proof. reflexivity. Qed.

(** C4. Two runs of the synthesizer on the same table return the same
    rows, whatever state the generator was in when each started: every
    stage begins with [random.seed(RANDOM_SEED)].  The same holds stage by
    stage for the device, role and location/phone/email assignments. *)
Theorem main_deterministic fuel out g1 g2 :
  main fuel out g1 = main fuel out g2 ∧
  assign_devices out g1 = assign_devices out g2 ∧
  assign_merchants fuel out g1 = assign_merchants fuel out g2 ∧
  assign_locations_and_contacts out g1 = assign_locations_and_contacts out g2.
Proof.
  split; [|done].
  unfold main, and_then, finished, bind.
  by rewrite (assign_devices_reseeds out g1 g2).
Qed.

(** *** The sharing passes *)

Lemma unique_NoDup l : NoDup (unique l).
Proof. unfold unique. rewrite reverse_Permutation. apply NoDup_remove_dups. Qed.

Lemma elem_of_unique l x : x ∈ unique l ↔ x ∈ l.
Proof.
  unfold unique. by rewrite elem_of_reverse, elem_of_remove_dups, elem_of_reverse.
Qed.

Lemma take_drop_disjoint (l : list string) i x :
  NoDup l → x ∈ take i l → x ∈ drop i l → False.
Proof.
  intros Hnd Ht Hd. rewrite <- (take_drop i l) in Hnd.
  apply NoDup_app in Hnd as (_ & Hdis & _). by apply (Hdis x).
Qed.

Lemma group_in_take (l : list string) i k x :
  x ∈ take k (drop i l) → x ∈ take (i + k) l.
Proof. rewrite <- take_take_drop, elem_of_app. auto. Qed.

Lemma take_mono_elem (l : list string) i k x :
  x ∈ take i l → x ∈ take (i + k) l.
Proof. rewrite <- take_take_drop, elem_of_app. auto. Qed.

Lemma assign_all_lookup group v d s :
  assign_all group v d !! s = if decide (s ∈ group) then Some v else d !! s.
Proof.
  unfold assign_all. revert d.
  induction group as [|x group IH]; intros d; cbn [foldl].
  - destruct (decide (s ∈ [])) as [Hin|]; [by apply elem_of_nil in Hin|done].
  - rewrite IH. destruct (decide (s ∈ group)) as [Hin|Hnin].
    + rewrite decide_True by (by right). done.
    + destruct (decide (s = x)) as [->|Hne].
      * rewrite decide_True by left. by rewrite lookup_insert_eq.
      * rewrite decide_False by (rewrite elem_of_cons; tauto).
        by rewrite lookup_insert_ne.
Qed.

Lemma assign_both_split group p e d :
  assign_both group p e d = (assign_all group p d.1, assign_all group e d.2).
Proof.
  unfold assign_both, assign_all. revert d.
  induction group as [|x group IH]; intros [d1 d2]; simpl; [done|].
  by rewrite IH.
Qed.

Lemma contact_inv_skip shuffled i k st :
  contact_inv shuffled i st → contact_inv shuffled (i + k) st.
Proof.
  intros Hinv grp p e Hg s Hs.
  destruct (Hinv grp p e Hg s Hs) as (Ht & Hp & He).
  split; [by apply take_mono_elem|done].
Qed.

Lemma contact_inv_group shuffled i k p e st :
  NoDup shuffled → contact_inv shuffled i st →
  let group := take k (drop i shuffled) in
  let d := assign_both group p e (phone_for_sender st, email_for_sender st) in
  contact_inv shuffled (i + k)
    (ContactState d.1 d.2 (contact_groups st ++ [(group, p, e)])).
Proof.
  intros Hnd Hinv group d grp p' e' Hg s Hs. simpl in Hg.
  subst d. rewrite assign_both_split. simpl.
  rewrite !assign_all_lookup.
  apply elem_of_app in Hg as [Hg|Hg].
  - destruct (Hinv grp p' e' Hg s Hs) as (Ht & Hp & He).
    split; [by apply take_mono_elem|].
    assert (s ∉ group) as Hnin.
    { intros Hin. apply (take_drop_disjoint shuffled i s Hnd Ht).
      by eapply subseteq_take. }
    destruct (decide (s ∈ group)); done.
  - apply list_elem_of_singleton in Hg. injection Hg as -> -> ->.
    split; [by apply group_in_take|].
    destruct (decide (s ∈ group)); done.
Qed.

(** The contact loop finishes within [len(shuffled)] iterations, and
    leaves every group with its shared phone and email. *)
Lemma contact_loop_spec shuffled fuel i st g :
  NoDup shuffled → (length shuffled ≤ fuel + i)%nat →
  contact_inv shuffled i st →
  ∃ st' i', (contact_loop fuel shuffled i st g).1 = Some st'
            ∧ contact_inv shuffled i' st'.
Proof.
  intros Hnd. revert i st g.
  induction fuel as [|fuel IH]; intros i st g Hfuel Hinv; simpl.
  - rewrite decide_False by lia. by exists st, i.
  - case_decide as Hi; [|by exists st, i].
    unfold bind at 1. destruct (random_lt PHONE_SHARE_RATE g) as [share g1].
    destruct share.
    + unfold bind at 1.
      pose proof (randint_range 2 5 g1 ltac:(lia)) as Hk.
      destruct (randint 2 5 g1) as [k g2]. simpl in Hk.
      unfold bind at 1. destruct (new_phone g2) as [p g3].
      unfold bind at 1. destruct (new_fraud_email g3) as [e g4].
      apply IH; [lia|]. by apply contact_inv_group.
    + apply IH; [lia|]. by apply contact_inv_skip.
Qed.

(** C10. The groups of the phone/email pass are formed once, each with one
    phone and one email: the pass ends normally and, for every group it
    formed, every member holds that group's phone and that group's email;
    so any two members of a group share both. *)
Theorem contact_groups_share_both (out : list row) g :
  ∃ st, (contact_dicts (unique (sender_id <$> out)) g).1.2 = Some st ∧
    ∀ grp p e, (grp, p, e) ∈ contact_groups st →
      ∀ s1 s2, s1 ∈ grp → s2 ∈ grp →
        phone_for_sender st !! s1 = Some p ∧
        phone_for_sender st !! s2 = Some p ∧
        email_for_sender st !! s1 = Some e ∧
        email_for_sender st !! s2 = Some e.
Proof.
  set (senders := unique (sender_id <$> out)).
  unfold contact_dicts, bind, seed.
  destruct (dict_comp (choice locations) senders ∅ (mt_seed RANDOM_SEED))
    as [loc_map g1].
  destruct (dict_comp new_phone senders ∅ g1) as [phones g2].
  destruct (dict_comp new_email senders ∅ g2) as [emails g3].
  pose proof (shuffle_Permutation senders g3) as Hp.
  destruct (shuffle senders g3) as [shuffled g4]. simpl in Hp.
  assert (NoDup shuffled) as Hnd.
  { rewrite Hp. apply unique_NoDup. }
  destruct (contact_loop_spec shuffled (length shuffled) 0
              (ContactState phones emails []) g4 Hnd) as (st & i & Hst & Hinv).
  { lia. }
  { intros grp p e Hg. by apply elem_of_nil in Hg. }
  destruct (contact_loop (length shuffled) shuffled 0 _ g4) as [r g5].
  simpl in *. subst r. exists st. split; [done|].
  intros grp p e Hg s1 s2 H1 H2.
  destruct (Hinv grp p e Hg s1 H1) as (_ & ? & ?).
  destruct (Hinv grp p e Hg s2 H2) as (_ & ? & ?). done.
Qed.

(** *** The device pass and the initial values *)

(** The device loop finishes within [len(shuffled)] iterations, and every
    group it forms has at least two members: a shorter slice ends the
    loop before any value is drawn for it. *)
Lemma device_loop_spec shuffled fuel i st g :
  (length shuffled ≤ fuel + i)%nat →
  Forall (λ gv, 2 ≤ length gv.1)%nat (device_groups st) →
  ∃ st', (device_loop fuel shuffled i st g).1 = Some st' ∧
         Forall (λ gv, 2 ≤ length gv.1)%nat (device_groups st').
Proof.
  revert i st g.
  induction fuel as [|fuel IH]; intros i st g Hfuel Hinv; simpl.
  - rewrite decide_False by lia. by exists st.
  - case_decide as Hi; [|by exists st].
    unfold bind at 1. destruct (random_lt SHARE_RATE g) as [share g1].
    destruct share; [|apply IH; [lia|done]].
    unfold bind at 1.
    pose proof (randint_range MIN_GROUP MAX_GROUP g1) as Hk.
    unfold MIN_GROUP, MAX_GROUP in *.
    destruct (randint 2 6 g1) as [k g2]. simpl in Hk.
    case_decide as Hlen; [by exists st|].
    unfold bind at 1. destruct (new_device g2) as [v g3].
    apply IH; [lia|]. simpl.
    apply Forall_app. split; [done|].
    apply Forall_singleton. simpl. lia.
Qed.

Lemma device_groups_at_least_two senders g :
  ∃ st, (device_dict senders g).1 = Some st ∧
        Forall (λ gv, 2 ≤ length gv.1)%nat (device_groups st).
Proof.
  unfold device_dict, bind, seed.
  destruct (dict_comp new_device senders ∅ (mt_seed RANDOM_SEED)) as [d g1].
  destruct (shuffle senders g1) as [shuffled g2].
  apply device_loop_spec; [lia|]. simpl. constructor.
Qed.

(** A dictionary comprehension holds, for each key, a value the
    expression returned on some state of the generator, and nothing else
    changes. *)
Lemma dict_comp_lookup gen keys d g s :
  (s ∈ keys → ∃ g', (dict_comp gen keys d g).1 !! s = Some (gen g').1) ∧
  (s ∉ keys → (dict_comp gen keys d g).1 !! s = d !! s).
Proof.
  revert d g. induction keys as [|x keys IH]; intros d g.
  - split; [intros Hin; by apply elem_of_nil in Hin|done].
  - cbn [dict_comp]. unfold bind.
    destruct (gen g) as [v g1] eqn:Hv.
    destruct (IH (<[x:=v]> d) g1) as [IH1 IH2].
    destruct (decide (s ∈ keys)) as [Hin|Hnin].
    + split; [intros _; by apply IH1|].
      intros Hn. exfalso. apply Hn. by right.
    + split.
      * intros Hs. apply elem_of_cons in Hs as [->|Hs]; [|done].
        exists g. rewrite IH2 by done. rewrite lookup_insert_eq, Hv. done.
      * intros Hn. rewrite IH2 by done.
        apply lookup_insert_ne. intros ->. apply Hn. left.
Qed.

(** X7. There are 9000 initial emails to draw from: more senders than that
    cannot all start with different ones, whatever the generator does. *)
Lemma initial_emails_collide senders g :
  9000 < Z.of_nat (length senders) →
  ¬ NoDup ((λ s, (dict_comp new_email senders ∅ g).1 !! s) <$> senders).
Proof.
  intros Hlen Hnd.
  set (pool := (λ n, Some ("user" +:+ pretty n +:+ "@mail.com"))
                 <$> seqZ 1000 9000).
  assert (Z.of_nat (length pool) = 9000) as Hpool.
  { unfold pool. rewrite length_fmap, length_seqZ. apply Z2Nat.id. lia. }
  apply (NoDup_submseteq _ pool) in Hnd.
  - apply submseteq_length in Hnd. rewrite length_fmap in Hnd. lia.
  - intros v Hv. apply list_elem_of_fmap in Hv as (s & -> & Hs).
    destruct (dict_comp_lookup new_email senders ∅ g s) as [Hin _].
    destruct (Hin Hs) as [g' ->].
    unfold new_email, bind, ret.
    pose proof (randint_range 1000 9999 g' ltac:(lia)) as Hr.
    destruct (randint 1000 9999 g') as [n g'']. simpl in Hr.
    cbn [fst]. unfold pool. apply list_elem_of_fmap.
    exists n. split; [done|]. apply elem_of_seqZ. lia.
Qed.

(** *** Device groups and locations *)

Lemma device_inv_skip shuffled i k st :
  device_inv shuffled i st → device_inv shuffled (i + k) st.
Proof.
  intros Hinv grp v Hg. destruct (Hinv grp v Hg) as [Hlen Hm].
  split; [done|]. intros s Hs. destruct (Hm s Hs) as [Ht Hd].
  split; [by apply take_mono_elem|done].
Qed.

Lemma device_inv_group shuffled i k v st :
  NoDup shuffled → device_inv shuffled i st →
  let group := take k (drop i shuffled) in
  (2 ≤ length group)%nat → (k ≤ 6)%nat →
  device_inv shuffled (i + k)
    (DevState (assign_all group v (device_for_sender st))
              (device_groups st ++ [(group, v)])).
Proof.
  intros Hnd Hinv group Hlen Hk grp v' Hg. simpl in Hg.
  apply elem_of_app in Hg as [Hg|Hg].
  - destruct (Hinv grp v' Hg) as [Hl Hm]. split; [done|].
    intros s Hs. destruct (Hm s Hs) as [Ht Hd].
    split; [by apply take_mono_elem|]. simpl.
    rewrite assign_all_lookup.
    assert (s ∉ group) as Hnin.
    { intros Hin. apply (take_drop_disjoint shuffled i s Hnd Ht).
      by eapply subseteq_take. }
    destruct (decide (s ∈ group)); done.
  - apply list_elem_of_singleton in Hg. injection Hg as -> ->.
    split.
    { split; [done|]. subst group. rewrite length_take. lia. }
    intros s Hs. split; [by apply group_in_take|]. simpl.
    rewrite assign_all_lookup. destruct (decide (s ∈ group)); done.
Qed.

Lemma device_loop_inv shuffled fuel i st g :
  NoDup shuffled → (length shuffled ≤ fuel + i)%nat →
  device_inv shuffled i st →
  ∃ st' i', (device_loop fuel shuffled i st g).1 = Some st'
            ∧ device_inv shuffled i' st'.
Proof.
  intros Hnd. revert i st g.
  induction fuel as [|fuel IH]; intros i st g Hfuel Hinv; simpl.
  - rewrite decide_False by lia. by exists st, i.
  - case_decide as Hi; [|by exists st, i].
    unfold bind at 1. destruct (random_lt SHARE_RATE g) as [share g1].
    destruct share; [|apply IH; [lia|by apply device_inv_skip]].
    unfold bind at 1.
    pose proof (randint_range MIN_GROUP MAX_GROUP g1) as Hk.
    unfold MIN_GROUP, MAX_GROUP in *.
    destruct (randint 2 6 g1) as [k g2]. simpl in Hk.
    case_decide as Hlen; [by exists st, i|].
    unfold bind at 1. destruct (new_device g2) as [v g3].
    apply IH; [lia|]. apply device_inv_group; [done|done|lia|lia].
Qed.

(** X2. The groups of the device pass: each has 2 to 6 senders of the table,
    and when the pass ends every member of a group holds that group's
    device, so two members of a group share it. *)
Theorem device_groups_share (out : list row) g :
  ∃ st, (device_dict (unique (sender_id <$> out)) g).1 = Some st ∧
    ∀ grp v, (grp, v) ∈ device_groups st →
      (2 ≤ length grp ≤ 6)%nat ∧
      ∀ s, s ∈ grp →
        s ∈ sender_id <$> out ∧ device_for_sender st !! s = Some v.
Proof.
  set (senders := unique (sender_id <$> out)).
  unfold device_dict, bind, seed.
  destruct (dict_comp new_device senders ∅ (mt_seed RANDOM_SEED)) as [d g1].
  pose proof (shuffle_Permutation senders g1) as Hp.
  destruct (shuffle senders g1) as [shuffled g2]. simpl in Hp.
  assert (NoDup shuffled) as Hnd by (rewrite Hp; apply unique_NoDup).
  destruct (device_loop_inv shuffled (length shuffled) 0 (DevState d []) g2 Hnd)
    as (st & i & Hst & Hinv).
  { lia. }
  { intros grp v Hg. by apply elem_of_nil in Hg. }
  exists st. split; [done|].
  intros grp v Hg. destruct (Hinv grp v Hg) as [Hlen Hm].
  split; [done|]. intros s Hs. destruct (Hm s Hs) as [Ht Hd].
  split; [|done].
  apply elem_of_unique. fold senders. rewrite <- Hp.
  by eapply subseteq_take.
Qed.

Lemma dict_comp_only_keys gen keys g s v :
  (dict_comp gen keys ∅ g).1 !! s = Some v →
  s ∈ keys ∧ ∃ g', v = (gen g').1.
Proof.
  intros Hv. destruct (dict_comp_lookup gen keys ∅ g s) as [Hin Hout].
  destruct (decide (s ∈ keys)) as [Hs|Hs].
  - split; [done|]. destruct (Hin Hs) as [g' Hg']. exists g'. congruence.
  - rewrite (Hout Hs), lookup_empty in Hv. done.
Qed.

Lemma locations_length : length locations = 50%nat.
Proof. reflexivity. Qed.

Lemma locations_NoDup : NoDup locations.
Proof.
  assert (bool_decide (NoDup locations) = true) as Hd
    by (vm_compute; reflexivity).
  by apply bool_decide_eq_true in Hd.
Qed.

(** X3. Every location assigned is one of the fifty of the pool, [L001] to
    [L050], which are pairwise distinct; only senders get one. *)
Theorem locations_from_pool senders g s l :
  (contact_dicts senders g).1.1 !! s = Some l →
  s ∈ senders ∧ l ∈ locations ∧
  length locations = 50%nat ∧ NoDup locations.
Proof.
  unfold contact_dicts, bind, seed.
  destruct (dict_comp (choice locations) senders ∅ (mt_seed RANDOM_SEED))
    as [loc_map g1] eqn:Hloc.
  destruct (dict_comp new_phone senders ∅ g1) as [phones g2].
  destruct (dict_comp new_email senders ∅ g2) as [emails g3].
  destruct (shuffle senders g3) as [shuffled g4].
  destruct (contact_loop _ _ _ _ g4) as [st g5]. simpl.
  intros Hl.
  assert (loc_map = (dict_comp (choice locations) senders ∅
                       (mt_seed RANDOM_SEED)).1) as -> by (by rewrite Hloc).
  apply dict_comp_only_keys in Hl as (Hs & g' & ->).
  split; [done|]. split; [|split; [apply locations_length|]].
  - unfold choice, bind, ret. rewrite locations_length.
    pose proof (randbelow_range (Z.of_nat 50) g' ltac:(lia)) as Hr.
    destruct (randbelow (Z.of_nat 50) g') as [j g'']. simpl in *.
    apply list_elem_of_lookup_total_2. rewrite locations_length. lia.
  - apply locations_NoDup.
Qed.

(** *** Merchants *)

Lemma unique_length l : (length (unique l) ≤ length l)%nat.
Proof.
  apply submseteq_length, NoDup_submseteq; [apply unique_NoDup|].
  intros x. by rewrite elem_of_unique.
Qed.

Lemma merchant_count_floor receivers :
  Z.of_nat (length receivers) < 2 ^ 49 →
  merchant_count receivers
  = Z.to_nat (Z.max 1 (4 * Z.of_nat (length receivers) / 25)).
Proof.
  intros Hn. unfold merchant_count.
  rewrite int_mul_merchant_rate by lia.
  case_decide; f_equal; lia.
Qed.

Lemma merchant_count_range receivers :
  receivers ≠ [] → Z.of_nat (length receivers) < 2 ^ 49 →
  (1 ≤ merchant_count receivers ≤ length receivers)%nat.
Proof.
  intros Hne Hn.
  assert (1 ≤ length receivers)%nat as Hpos.
  { destruct receivers; [done|simpl; lia]. }
  rewrite (merchant_count_floor receivers Hn).
  pose proof (Z.div_mod (4 * Z.of_nat (length receivers)) 25 ltac:(lia)).
  pose proof (Z.mod_pos_bound (4 * Z.of_nat (length receivers)) 25 ltac:(lia)).
  lia.
Qed.

Lemma merchant_sample_spec fuel receivers g :
  NoDup receivers → receivers ≠ [] →
  Z.of_nat (length receivers) < 2 ^ 49 →
  match (merchant_sample fuel receivers g).1 with
  | Returned picked =>
      length picked = merchant_count receivers ∧
      (1 ≤ length picked)%nat ∧ NoDup picked ∧
      (∀ r, r ∈ picked → r ∈ receivers)
  | ValueError => False
  | Unfinished =>
      sample_setsize (merchant_count receivers) < Z.of_nat (length receivers)
  end.
Proof.
  intros Hnd Hne Hn.
  pose proof (merchant_count_range receivers Hne Hn) as Hrange.
  unfold merchant_sample, bind, seed.
  pose proof (sample_outcome fuel receivers (merchant_count receivers)
                (mt_seed RANDOM_SEED) ltac:(lia) Hnd) as Hs.
  destruct (sample fuel receivers (merchant_count receivers)
              (mt_seed RANDOM_SEED)) as [[picked| |] g']; simpl in *;
    [|done|done].
  destruct Hs as (Hlen & Hnd' & Hsub).
  split; [done|]. split; [lia|]. split; [done|].
  intros r Hr. by apply Hsub.
Qed.

Lemma merchant_sample_unfinished (P : rng → Prop) fuel receivers g :
  (∀ n g, P g → P (randbelow n g).2) → P (mt_seed RANDOM_SEED) →
  (merchant_sample fuel receivers g).1 = Unfinished →
  sample_setsize (merchant_count receivers) < Z.of_nat (length receivers) ∧
  ∃ sel j g', P g' ∧ (size sel < merchant_count receivers)%nat ∧
    (redraw fuel (Z.of_nat (length receivers)) sel j g').1 = None.
Proof.
  intros HP Hg. unfold merchant_sample, bind, seed.
  apply (sample_unfinished P); done.
Qed.

Lemma receivers_nonempty (out : list row) :
  out ≠ [] → unique (receiver_id <$> out) ≠ [].
Proof.
  destruct out as [|r out]; [done|]. intros _ Hnil.
  assert (receiver_id r ∈ unique (receiver_id <$> r :: out)) as Hin.
  { apply elem_of_unique. left. }
  rewrite Hnil in Hin. by apply elem_of_nil in Hin.
Qed.

Lemma receivers_bound (out : list row) :
  Z.of_nat (length out) < 2 ^ 49 →
  Z.of_nat (length (unique (receiver_id <$> out))) < 2 ^ 49.
Proof.
  intros Hn. pose proof (unique_length (receiver_id <$> out)) as Hl.
  rewrite length_fmap in Hl. lia.
Qed.


(** *** Emails tell who was grouped *)

Lemma fraud_not_user e : is_fraud_email e → is_user_email e → False.
Proof. intros (n & _ & ->) (m & _ & [=]). Qed.

Lemma new_fraud_email_shape g : is_fraud_email (new_fraud_email g).1.
Proof.
  unfold new_fraud_email, bind, ret.
  pose proof (randint_range 1000 9999 g ltac:(lia)) as Hr.
  destruct (randint 1000 9999 g) as [n g']. simpl in *. by exists n.
Qed.

Lemma new_email_shape g : is_user_email (new_email g).1.
Proof.
  unfold new_email, bind, ret.
  pose proof (randint_range 1000 9999 g ltac:(lia)) as Hr.
  destruct (randint 1000 9999 g) as [n g']. simpl in *. by exists n.
Qed.

Lemma contact_loop_frame emails0 shuffled fuel i st g st' :
  contact_frame emails0 st →
  (contact_loop fuel shuffled i st g).1 = Some st' →
  contact_frame emails0 st'.
Proof.
  revert i st g. induction fuel as [|fuel IH]; intros i st g Hfr; simpl.
  - case_decide; [done|]. by intros [= <-].
  - case_decide as Hi; [|by intros [= <-]].
    unfold bind at 1. destruct (random_lt PHONE_SHARE_RATE g) as [share g1].
    destruct share; [|by apply IH].
    unfold bind at 1. destruct (randint 2 5 g1) as [k g2].
    unfold bind at 1. destruct (new_phone g2) as [p g3].
    unfold bind at 1.
    pose proof (new_fraud_email_shape g3) as He.
    destruct (new_fraud_email g3) as [e g4]. simpl in He.
    apply IH. destruct Hfr as [Hf1 Hf2]. split.
    + intros grp p' e' Hg. simpl in Hg.
      apply elem_of_app in Hg as [Hg|Hg]; [by eapply Hf1|].
      apply list_elem_of_singleton in Hg. by injection Hg as -> -> ->.
    + intros s Hs. simpl. rewrite assign_both_split. simpl.
      rewrite assign_all_lookup.
      unfold in_contact_group in Hs. simpl in Hs.
      rewrite Exists_app, Exists_cons in Hs. simpl in Hs.
      rewrite decide_False by tauto.
      apply Hf2. unfold in_contact_group. tauto.
Qed.

(** X4. After the phone/email pass a sender's email shows whether it was put
    in a group: the senders of the groups have a [fraud...@mail.com]
    email and all the others a [user...@mail.com] one. *)
Theorem fraud_email_iff_grouped (out : list row) g :
  ∃ st, (contact_dicts (unique (sender_id <$> out)) g).1.2 = Some st ∧
    ∀ s, s ∈ sender_id <$> out →
      ∃ e, email_for_sender st !! s = Some e ∧
           (is_fraud_email e ↔ in_contact_group st s) ∧
           (is_user_email e ↔ ¬ in_contact_group st s).
Proof.
  set (senders := unique (sender_id <$> out)).
  unfold contact_dicts, bind, seed.
  destruct (dict_comp (choice locations) senders ∅ (mt_seed RANDOM_SEED))
    as [loc_map g1].
  destruct (dict_comp new_phone senders ∅ g1) as [phones g2].
  pose proof (dict_comp_lookup new_email senders ∅ g2) as Hinit.
  destruct (dict_comp new_email senders ∅ g2) as [emails g3].
  pose proof (shuffle_Permutation senders g3) as Hp.
  destruct (shuffle senders g3) as [shuffled g4]. simpl in Hp, Hinit.
  assert (NoDup shuffled) as Hnd by (rewrite Hp; apply unique_NoDup).
  destruct (contact_loop_spec shuffled (length shuffled) 0
              (ContactState phones emails []) g4 Hnd) as (st & i & Hst & Hinv).
  { lia. }
  { intros grp p e Hg. by apply elem_of_nil in Hg. }
  pose proof (contact_loop_frame emails shuffled (length shuffled) 0
                (ContactState phones emails []) g4 st) as Hfr.
  destruct (contact_loop (length shuffled) shuffled 0 _ g4) as [r g5].
  simpl in *. subst r. exists st. split; [done|].
  destruct Hfr as [Hf1 Hf2]; [|done|].
  { split; [intros grp p e Hg; by apply elem_of_nil in Hg|done]. }
  intros s Hs. apply elem_of_unique in Hs. fold senders in Hs.
  destruct (decide (in_contact_group st s)) as [Hin|Hout].
  - pose proof Hin as Hin'. unfold in_contact_group in Hin'.
    apply Exists_exists in Hin' as ([[grp p] e] & Hg & Hsg). simpl in Hsg.
    destruct (Hinv grp p e Hg s Hsg) as (_ & _ & Hem).
    exists e. split; [done|]. pose proof (Hf1 grp p e Hg) as Hfe.
    split; [tauto|]. split; [|done].
    intros Hue. exfalso. by eapply fraud_not_user.
  - destruct (Hinit s) as [Hk _]. destruct (Hk Hs) as [g' Hv].
    exists (new_email g').1. split; [by rewrite (Hf2 s Hout)|].
    pose proof (new_email_shape g') as Hue.
    split; [|tauto]. split; [|done].
    intros Hfe. exfalso. by eapply fraud_not_user.
Qed.

(** *** The whole synthesizer *)

Lemma assign_all_is_Some group v (d : gmap string string) s :
  is_Some (d !! s) → is_Some (assign_all group v d !! s).
Proof.
  intros Hs. rewrite assign_all_lookup. by destruct (decide (s ∈ group)).
Qed.

Lemma device_loop_dom shuffled fuel i st g :
  (length shuffled ≤ fuel + i)%nat →
  ∃ st', (device_loop fuel shuffled i st g).1 = Some st' ∧
    ∀ s, is_Some (device_for_sender st !! s) →
         is_Some (device_for_sender st' !! s).
Proof.
  revert i st g. induction fuel as [|fuel IH]; intros i st g Hfuel; simpl.
  - rewrite decide_False by lia. by exists st.
  - case_decide as Hi; [|by exists st].
    unfold bind at 1. destruct (random_lt SHARE_RATE g) as [share g1].
    destruct share; [|apply IH; lia].
    unfold bind at 1.
    pose proof (randint_range MIN_GROUP MAX_GROUP g1) as Hk.
    unfold MIN_GROUP, MAX_GROUP in *.
    destruct (randint 2 6 g1) as [k g2]. simpl in Hk.
    case_decide as Hlen; [by exists st|].
    unfold bind at 1. destruct (new_device g2) as [v g3].
    edestruct (IH (i + Z.to_nat k)%nat) as (st' & Hst & Hdom); [lia|].
    exists st'. split; [exact Hst|].
    intros s Hs. apply Hdom. simpl. by apply assign_all_is_Some.
Qed.

Lemma contact_loop_dom shuffled fuel i st g :
  (length shuffled ≤ fuel + i)%nat →
  ∃ st', (contact_loop fuel shuffled i st g).1 = Some st' ∧
    ∀ s, (is_Some (phone_for_sender st !! s) →
          is_Some (phone_for_sender st' !! s)) ∧
         (is_Some (email_for_sender st !! s) →
          is_Some (email_for_sender st' !! s)).
Proof.
  revert i st g. induction fuel as [|fuel IH]; intros i st g Hfuel; simpl.
  - rewrite decide_False by lia. by exists st.
  - case_decide as Hi; [|by exists st].
    unfold bind at 1. destruct (random_lt PHONE_SHARE_RATE g) as [share g1].
    destruct share; [|apply IH; lia].
    unfold bind at 1.
    pose proof (randint_range 2 5 g1 ltac:(lia)) as Hk.
    destruct (randint 2 5 g1) as [k g2]. simpl in Hk.
    unfold bind at 1. destruct (new_phone g2) as [p g3].
    unfold bind at 1. destruct (new_fraud_email g3) as [e g4].
    edestruct (IH (i + Z.to_nat k)%nat) as (st' & Hst & Hdom); [lia|].
    exists st'. split; [exact Hst|].
    intros s. destruct (Hdom s) as [Hp He].
    rewrite assign_both_split in Hp, He. simpl in Hp, He.
    split; intros Hs; [apply Hp|apply He]; by apply assign_all_is_Some.
Qed.

Lemma dict_comp_is_Some gen keys g s :
  s ∈ keys → is_Some ((dict_comp gen keys ∅ g).1 !! s).
Proof.
  intros Hs. destruct (dict_comp_lookup gen keys ∅ g s) as [Hin _].
  destruct (Hin Hs) as [g' ->]. done.
Qed.

Lemma assign_devices_spec out g :
  ∃ d, (assign_devices out g).1 = Some (set_device d <$> out) ∧
       ∀ s, s ∈ sender_id <$> out → is_Some (d !! s).
Proof.
  unfold assign_devices, device_dict, bind, seed, ret.
  set (senders := unique (sender_id <$> out)).
  pose proof (λ s, dict_comp_is_Some new_device senders
                     (mt_seed RANDOM_SEED) s) as Hd.
  destruct (dict_comp new_device senders ∅ (mt_seed RANDOM_SEED)) as [d g1].
  destruct (shuffle senders g1) as [shuffled g2].
  destruct (device_loop_dom shuffled (length shuffled) 0 (DevState d []) g2)
    as (st & Hst & Hdom); [lia|].
  destruct (device_loop _ _ _ _ g2) as [o g3]. simpl in *. subst o.
  exists (device_for_sender st). split; [done|].
  intros s Hs. apply Hdom, Hd. by apply elem_of_unique.
Qed.

Lemma assign_merchants_spec fuel out g :
  out ≠ [] → Z.of_nat (length out) < 2 ^ 49 →
  let receivers := unique (receiver_id <$> out) in
  match (assign_merchants fuel out g).1 with
  | Returned out' => ∃ ms, out' = set_role ms <$> out
  | ValueError => False
  | Unfinished =>
      sample_setsize (merchant_count receivers) < Z.of_nat (length receivers)
  end.
Proof.
  intros Hne Hn receivers.
  pose proof (merchant_sample_spec fuel receivers g (unique_NoDup _)
                (receivers_nonempty out Hne) (receivers_bound out Hn)) as Hs.
  unfold assign_merchants, merchant_set, bind, ret. fold receivers.
  destruct (merchant_sample fuel receivers g) as [[picked| |] g'];
    simpl in *; [|done|done].
  by eexists.
Qed.

Lemma assign_locations_and_contacts_spec out g :
  ∃ loc_map st,
    (assign_locations_and_contacts out g).1
    = Some (set_contacts loc_map st <$> out) ∧
    ∀ s, s ∈ sender_id <$> out →
      is_Some (loc_map !! s) ∧ is_Some (phone_for_sender st !! s)
      ∧ is_Some (email_for_sender st !! s).
Proof.
  unfold assign_locations_and_contacts, contact_dicts, bind, seed, ret.
  set (senders := unique (sender_id <$> out)).
  pose proof (λ s, dict_comp_is_Some (choice locations) senders
                     (mt_seed RANDOM_SEED) s) as Hl.
  destruct (dict_comp (choice locations) senders ∅ (mt_seed RANDOM_SEED))
    as [loc_map g1].
  pose proof (λ s, dict_comp_is_Some new_phone senders g1 s) as Hp.
  destruct (dict_comp new_phone senders ∅ g1) as [phones g2].
  pose proof (λ s, dict_comp_is_Some new_email senders g2 s) as He.
  destruct (dict_comp new_email senders ∅ g2) as [emails g3].
  destruct (shuffle senders g3) as [shuffled g4].
  destruct (contact_loop_dom shuffled (length shuffled) 0
              (ContactState phones emails []) g4) as (st & Hst & Hdom); [lia|].
  destruct (contact_loop _ _ _ _ g4) as [o g5]. simpl in *. subst o.
  exists loc_map, st. split; [done|].
  intros s Hs. apply elem_of_unique in Hs. fold senders in Hs.
  destruct (Hdom s) as [Hdp Hde]. auto.
Qed.

Lemma set_device_receivers d (out : list row) :
  receiver_id <$> (set_device d <$> out) = receiver_id <$> out.
Proof. rewrite <- list_fmap_compose. done. Qed.

Lemma main_stages fuel out g :
  out ≠ [] → Z.of_nat (length out) < 2 ^ 49 →
  let receivers := unique (receiver_id <$> out) in
  match (main fuel out g).1 with
  | Returned out' =>
      ∃ d ms loc_map st,
        out' = set_contacts loc_map st
                 <$> (set_role ms <$> (set_device d <$> out))
        ∧ ∀ s, s ∈ sender_id <$> out →
            is_Some (d !! s) ∧ is_Some (loc_map !! s)
            ∧ is_Some (phone_for_sender st !! s)
            ∧ is_Some (email_for_sender st !! s)
  | ValueError => False
  | Unfinished =>
      sample_setsize (merchant_count receivers) < Z.of_nat (length receivers)
  end.
Proof.
  intros Hne Hn receivers. unfold main, and_then, finished, bind, ret.
  destruct (assign_devices_spec out g) as (d & H1 & Hd).
  destruct (assign_devices out g) as [o1 g1]. simpl in H1. subst o1.
  set (out1 := set_device d <$> out).
  assert (out1 ≠ []) as Hne1 by (subst out1; by destruct out).
  assert (Z.of_nat (length out1) < 2 ^ 49) as Hn1
    by (subst out1; by rewrite length_fmap).
  pose proof (assign_merchants_spec fuel out1 g1 Hne1 Hn1) as H2.
  cbv zeta in H2.
  replace (unique (receiver_id <$> out1)) with receivers in H2
    by (subst out1 receivers; by rewrite set_device_receivers).
  destruct (assign_merchants fuel out1 g1) as [[out2| |] g2]; simpl in *;
    [|done|done].
  destruct H2 as [ms ->].
  set (out2 := set_role ms <$> out1).
  destruct (assign_locations_and_contacts_spec out2 g2)
    as (loc_map & st & H3 & Hc).
  destruct (assign_locations_and_contacts out2 g2) as [o3 g3].
  simpl in H3. subst o3. simpl.
  exists d, ms, loc_map, st. split; [done|].
  intros s Hs. split; [by apply Hd|]. apply Hc.
  subst out2 out1. rewrite <- !list_fmap_compose.
  by replace (sender_id ∘ (set_role ms ∘ set_device d)) with sender_id.
Qed.


(** X6. From the cleaned table on, the synthesizer raises on the empty
    table and on no other: with no receiver, [random.sample] is asked for
    one element of none and raises ValueError. *)
Theorem main_fails_on_empty_only fuel out g :
  Z.of_nat (length out) < 2 ^ 49 →
  ((main fuel out g).1 = ValueError ↔ out = []).
Proof.
  intros Hn. split.
  - intros Hnone. destruct (decide (out = [])) as [|Hne]; [done|].
    pose proof (main_stages fuel out g Hne Hn) as Hm. simpl in Hm.
    by rewrite Hnone in Hm.
  - intros ->. reflexivity.
Qed.

End Facts.

(** *** [build_core_fields] *)

Lemma digit_value_char x : (x < 10)%N → digit_value (pretty_N_char x) = x.
Proof.
  intros Hx. destruct x as [|p]; [reflexivity|].
  do 4 (try destruct p as [p|p|]); try reflexivity; lia.
Qed.

Lemma digits_value_go x s :
  digits_value 0 (pretty_N_go x s) = digits_value x s.
Proof.
  revert s. induction (N.lt_wf_0 x) as [x _ IH]; intros s.
  destruct (decide (x = 0)%N) as [->|Hx]; [by rewrite pretty_N_go_0|].
  rewrite pretty_N_go_step by lia.
  rewrite IH by (apply N.div_lt; lia). cbn [digits_value].
  rewrite digit_value_char by (apply N.mod_lt; lia).
  f_equal. symmetry. apply N.div_mod. lia.
Qed.

Lemma digits_value_pretty (n : nat) :
  digits_value 0 (pretty n) = N.of_nat n.
Proof.
  unfold pretty, pretty_nat, pretty, pretty_N.
  case_decide as Hn; [by rewrite Hn|].
  by rewrite digits_value_go.
Qed.

Lemma digits_value_zeros k s :
  digits_value 0 (String.concat "" (replicate k "0"%string) +:+ s)
  = digits_value 0 s.
Proof.
  induction k as [|k IH]; [done|].
  destruct k as [|k]; [done|].
  change (replicate (S (S k)) "0"%string)
    with ("0"%string :: replicate (S k) "0"%string).
  cbn [String.concat]. 
  change (replicate (S k) "0"%string) with ("0"%string :: replicate k "0"%string) at 1.
  cbv beta iota. simpl in *. exact IH.
Qed.

Lemma digits_value_zfill w s : digits_value 0 (zfill w s) = digits_value 0 s.
Proof. unfold zfill. apply digits_value_zeros. Qed.

Lemma txn_id_inj i j : txn_id i = txn_id j → i = j.
Proof.
  intros Heq.
  assert (zfill 7 (pretty i) = zfill 7 (pretty j)) as Hz.
  { unfold txn_id in Heq. by injection Heq. }
  apply (f_equal (digits_value 0)) in Hz.
  rewrite !digits_value_zfill, !digits_value_pretty in Hz. lia.
Qed.

Section CoreFacts.
Variable h : string → string.
Variable isoformat_hours : Z → string.

Lemma core_row_Some i r x :
  core_row h isoformat_hours i r = Some x ↔
  ∃ a, raw_amount r = Some a ∧ 0 < mant a ∧
       x = Row (txn_id i) (h (nameOrig r)) (h (nameDest r)) a
               (isoformat_hours (step r)) (isFraud r)
               None None None None None.
Proof.
  unfold core_row. destruct (raw_amount r) as [a|]; [|naive_solver].
  case_decide; naive_solver.
Qed.

Lemma elem_of_core_rows i df x :
  x ∈ core_rows h isoformat_hours i df ↔
  ∃ j r, df !! j = Some r ∧ core_row h isoformat_hours (i + j) r = Some x.
Proof.
  revert i. induction df as [|r df IH]; intros i; simpl.
  - split; [intros Hin; by apply elem_of_nil in Hin|]. by intros (j & r & ? & _).
  - assert (x ∈ core_rows h isoformat_hours (S i) df ↔
            ∃ j r', (r :: df) !! S j = Some r' ∧
                    core_row h isoformat_hours (i + S j) r' = Some x) as Htl.
    { rewrite IH. simpl. split; intros (j & r' & Hj & Hc); exists j, r';
        (split; [done|]); by replace (i + S j)%nat with (S i + j)%nat in * by lia. }
    destruct (core_row h isoformat_hours i r) as [y|] eqn:Hy.
    + rewrite elem_of_cons, Htl. split.
      * intros [->|(j & r' & Hj & Hc)].
        -- exists 0%nat, r. by rewrite Nat.add_0_r.
        -- by exists (S j), r'.
      * intros ([|j] & r' & Hj & Hc).
        -- left. simpl in Hj. injection Hj as <-.
           rewrite Nat.add_0_r in Hc. congruence.
        -- right. by exists j, r'.
    + rewrite Htl. split.
      * intros (j & r' & Hj & Hc). by exists (S j), r'.
      * intros ([|j] & r' & Hj & Hc).
        -- simpl in Hj. injection Hj as <-.
           rewrite Nat.add_0_r in Hc. congruence.
        -- by exists j, r'.
Qed.

Lemma core_rows_length i df :
  (length (core_rows h isoformat_hours i df) ≤ length df)%nat.
Proof.
  revert i. induction df as [|r df IH]; intros i; simpl; [done|].
  specialize (IH (S i)). destruct (core_row _ _ i r); simpl; lia.
Qed.

Lemma core_rows_ids i df :
  NoDup (transaction_id <$> core_rows h isoformat_hours i df).
Proof.
  revert i. induction df as [|r df IH]; intros i; simpl; [constructor|].
  destruct (core_row h isoformat_hours i r) as [y|] eqn:Hy; [|apply IH].
  rewrite fmap_cons. apply NoDup_cons. split; [|apply IH].
  intros Hin. apply list_elem_of_fmap in Hin as (x & Hid & Hx).
  apply elem_of_core_rows in Hx as (j & r' & _ & Hc).
  apply core_row_Some in Hy as (a & _ & _ & ->).
  apply core_row_Some in Hc as (a' & _ & _ & ->).
  simpl in Hid. apply txn_id_inj in Hid. lia.
Qed.

(** X1. The rows [build_core_fields] keeps are those with a numeric,
    positive amount, in the order of the raw table; row [i] carries the id
    [T] followed by [i] on seven digits, the hashed names, its amount, its
    timestamp and its label; no two rows have the same transaction id. *)
Theorem build_core_fields_rows df :
  (∀ x, x ∈ build_core_fields h isoformat_hours df ↔
     ∃ i r a, df !! i = Some r ∧ raw_amount r = Some a ∧ 0 < mant a ∧
       x = Row (txn_id i) (h (nameOrig r)) (h (nameDest r)) a
               (isoformat_hours (step r)) (isFraud r)
               None None None None None) ∧
  (∀ x, x ∈ build_core_fields h isoformat_hours df → 0 < mant (amount x)) ∧
  NoDup (transaction_id <$> build_core_fields h isoformat_hours df) ∧
  (length (build_core_fields h isoformat_hours df) ≤ length df)%nat.
Proof.
  unfold build_core_fields.
  assert (Hrows : ∀ x, x ∈ core_rows h isoformat_hours 0 df ↔
     ∃ i r a, df !! i = Some r ∧ raw_amount r = Some a ∧ 0 < mant a ∧
       x = Row (txn_id i) (h (nameOrig r)) (h (nameDest r)) a
               (isoformat_hours (step r)) (isFraud r)
               None None None None None).
  { intros x. rewrite elem_of_core_rows. split.
    - intros (j & r & Hj & Hc). simpl in Hc.
      apply core_row_Some in Hc as (a & ? & ? & ?). by exists j, r, a.
    - intros (j & r & a & Hj & Ha & Hpos & Hx). exists j, r.
      split; [done|]. apply core_row_Some. by exists a. }
  split; [exact Hrows|]. split; [|split].
  - intros x Hx. apply Hrows in Hx as (i & r & a & _ & _ & Hpos & ->). done.
  - apply core_rows_ids.
  - apply core_rows_length.
Qed.

End CoreFacts.


Lemma locations_from_pool_witness :
  "a"%string ∈ ["a"%string] ∧ "L001"%string ∈ locations ∧
  length locations = 50%nat ∧ NoDup locations.
Proof.
  apply (locations_from_pool (H:=ZeroGen) ["a"%string] zero_tape
           "a"%string "L001"%string).
  vm_compute. reflexivity.
Defined.


Lemma main_fails_on_empty_only_witness :
  (main (H:=ZeroGen) 0 [] zero_tape).1 = ValueError ↔ @nil row = [].
Proof.
  apply (main_fails_on_empty_only (H:=ZeroGen) 0 [] zero_tape).
  vm_compute. reflexivity.
Defined.

Lemma initial_emails_collide_witness :
  ¬ NoDup ((λ s, (dict_comp (H:=ZeroGen) new_email
                    (pretty <$> seqZ 0 9001) ∅ zero_tape).1 !! s)
           <$> (pretty <$> seqZ 0 9001)).
Proof.
  apply (initial_emails_collide (H:=ZeroGen) (pretty <$> seqZ 0 9001)
           zero_tape).
  rewrite length_fmap, length_seqZ. lia.
Defined.

(** C1. Three senders, every share trial succeeding with groups of two:
    the phone/email pass gives the last sender, alone in its slice, a
    shared phone and a shared email; the device pass, which stops at a
    slice of fewer than two, forms the first group only. *)
Theorem contact_pass_groups_one_sender :
  contact_groups <$> (@contact_dicts ZeroGen ["a"; "b"; "c"] zero_tape).1.2
  = Some [(["b"; "c"], "P100000", "fraud1000@mail.com");
          (["a"], "P100000", "fraud1000@mail.com")]%string
  ∧ device_groups <$> (@device_dict ZeroGen ["a"; "b"; "c"] zero_tape).1
    = Some [(["b"; "c"], "D100000")]%string.
Proof. split; vm_compute; reflexivity. Qed.

(** C9. Two senders whose draws coincide start with the same device:
    the initial values are drawn independently and not compared. *)
Theorem initial_devices_can_coincide :
  let d := (@dict_comp ZeroGen (@new_device ZeroGen) ["a"; "b"] ∅ zero_tape).1 in
  d !! "a"%string = Some "D100000"%string ∧
  d !! "b"%string = Some "D100000"%string.
Proof. split; vm_compute; reflexivity. Qed.


(** Twenty-two receivers are past the pool branch of [random.sample]:
    with the words 21, 21, 3, 7 the second pick repeats index 21 and is
    drawn again, so the merchants are r21, r3 and r7; one redraw is
    enough, none is not. *)
Example merchants_of_twenty_two :
  (merchant_sample (H:=TraceGen) 1 names22 trace_tape).1
  = Returned ["r21"; "r3"; "r7"]%string
  ∧ (merchant_sample (H:=TraceGen) 0 names22 trace_tape).1 = Unfinished
  ∧ (sample_pool (H:=TraceGen) names22 3 (mt_seed RANDOM_SEED)).1
    = ["r21"; "r0"; "r3"]%string.
Proof. repeat split; vm_compute; reflexivity. Qed.

(** A generator that repeats one index for ever keeps the second pick
    drawing: on it the loop [while j in selected] never ends, whatever
    the number of redraws allowed. *)
Example zero_generator_never_picks_twice fuel :
  (merchant_sample (H:=ZeroGen) fuel names22 zero_tape).1 = Unfinished.
Proof.
  assert (∀ n sel p, 0 ∈ sel →
            (redraw (H:=ZeroGen) fuel n sel 0 (Tape (λ _, 0) p)).1 = None)
    as Hre.
  { intros n sel. induction fuel as [|fuel IH]; intros p Hsel; simpl.
    - by rewrite decide_True.
    - rewrite decide_True by done. unfold bind.
      cbn [randbelow ZeroGen TapeGen tape_next fst snd words pos].
      rewrite Zmod_0_l. by apply IH. }
  assert (∀ k sel p, 0 ∈ sel →
            (sample_set (H:=ZeroGen) fuel names22 sel (S k)
               (Tape (λ _, 0) p)).1 = None) as Hset.
  { intros k sel p Hsel. cbn [sample_set]. unfold bind at 1.
    cbn [randbelow ZeroGen TapeGen tape_next fst snd words pos].
    rewrite Zmod_0_l. unfold bind at 1.
    match goal with |- context [redraw _ ?n _ _ ?t] =>
      pose proof (Hre n sel (S p) Hsel) as Hn;
      destruct (redraw (H:=ZeroGen) fuel n sel 0 t) as [o t'] end.
    simpl in Hn. by subst o. }
  assert (∀ k p, (sample_set (H:=ZeroGen) fuel names22 ∅ (S (S k))
                    (Tape (λ _, 0) p)).1 = None) as Htop.
  { intros k p. remember (S k) as k1 eqn:Hk1. cbn [sample_set].
    unfold bind at 1.
    cbn [randbelow ZeroGen TapeGen tape_next fst snd words pos].
    rewrite Zmod_0_l. unfold bind at 1.
    assert (∀ n t, redraw (H:=ZeroGen) fuel n ∅ 0 t = (Some 0, t)) as ->.
    { intros n t. destruct fuel; simpl; by rewrite decide_False by set_solver. }
    change (names22 !! Z.to_nat 0) with (Some "r0"%string).
    cbv beta iota. unfold bind at 1. subst k1.
    match goal with |- context [sample_set _ _ ?s _ ?t] =>
      pose proof (Hset k s (S p) ltac:(set_solver)) as Hn;
      destruct (sample_set (H:=ZeroGen) fuel names22 s (S k) t) as [o t'] end.
    simpl in Hn. by subst o. }
  unfold merchant_sample, bind, seed, sample.
  change (merchant_count names22) with 3%nat.
  change (sample_setsize 3) with 21.
  rewrite decide_True by (vm_compute; lia).
  rewrite decide_False by (vm_compute; intros Hle; by apply Hle).
  unfold bind at 1, ret.
  pose proof (Htop 1%nat 0%nat) as Hn.
  change (mt_seed RANDOM_SEED) with (Tape (λ _, 0) 0).
  destruct (sample_set (H:=ZeroGen) fuel names22 ∅ 3 (Tape (λ _, 0) 0)) as [o t'].
  simpl in Hn. by subst o.
Qed.

(** On the counting generator the roles are assigned for every table:
    as many redraws as there are receivers are enough for each pick. *)
Example counting_generator_returns (out : list row) g :
  out ≠ [] → Z.of_nat (length out) < 2 ^ 49 →
  ∃ out', (assign_merchants (H:=CountGen) (length out) out g).1
          = Returned out'.
Proof.
  intros Hne Hn.
  set (receivers := unique (receiver_id <$> out)).
  pose proof (merchant_sample_spec (H:=CountGen) (length out) receivers g
                (unique_NoDup _) (receivers_nonempty out Hne)
                (receivers_bound out Hn)) as Hs.
  pose proof (merchant_sample_unfinished (H:=CountGen)
                (λ t, words t = (λ i, RANDOM_SEED + Z.of_nat i))
                (length out) receivers g (λ _ _ Ht, Ht) eq_refl) as Hu.
  pose proof (merchant_count_range receivers (receivers_nonempty out Hne)
                (receivers_bound out Hn)) as Hrange.
  pose proof (unique_length (receiver_id <$> out)) as Hlen.
  rewrite length_fmap in Hlen. fold receivers in Hlen.
  unfold assign_merchants, merchant_set, bind, ret. fold receivers.
  destruct (merchant_sample (H:=CountGen) (length out) receivers g)
    as [[picked| |] g']; simpl in *; [by eexists|done|exfalso].
  destruct (Hu eq_refl) as (_ & sel & j & [w p] & Hw & Hsize & Hnone).
  simpl in Hw. subst w.
  apply (counting_redraw_returns RANDOM_SEED (length out)
           (Z.of_nat (length receivers)) sel j p); [lia|lia|lia|done].
Qed.

End PreprocessFacts.

(** ** Device co-users *)
Module CoUsersFacts.
Import Loader CoUsers.

Lemma labelled_lt l g i : labelled l g i = true → (i < length (nodes g))%nat.
Proof.
  unfold labelled. destruct (nodes g !! i) eqn:Hi; [|done].
  intros _. by eapply lookup_lt_Some.
Qed.

Lemma elem_of_sharers g u v :
  v ∈ sharers g u ↔
  labelled User g u = true ∧ labelled User g v = true ∧ u ≠ v ∧
  ∃ d, labelled Device g d = true ∧ uses g u d = true ∧ uses g v d = true.
Proof.
  unfold sharers. rewrite list_elem_of_bind. split.
  - intros (d & Hv & _). apply list_elem_of_bind in Hv as (v' & Hv & _).
    destruct (labelled User g u) eqn:H1, (labelled Device g d) eqn:H2,
      (labelled User g v') eqn:H3, (uses g u d) eqn:H4, (uses g v' d) eqn:H5;
      simpl in Hv; try (by apply elem_of_nil in Hv).
    case_bool_decide; simpl in Hv; [|by apply elem_of_nil in Hv].
    apply list_elem_of_singleton in Hv as ->. eauto 10.
  - intros (H1 & H3 & Hne & d & H2 & H4 & H5).
    exists d. split; [|apply elem_of_seq; split; [lia|]; simpl;
                       by eapply labelled_lt].
    apply list_elem_of_bind. exists v.
    split; [|apply elem_of_seq; split; [lia|]; simpl; by eapply labelled_lt].
    rewrite H1, H2, H3, H4, H5. simpl.
    rewrite bool_decide_eq_true_2 by done. left.
Qed.

Lemma elem_of_co_users g u v :
  v ∈ co_users g u ↔
  labelled User g u = true ∧ labelled User g v = true ∧ u ≠ v ∧
  ∃ d, labelled Device g d = true ∧ uses g u d = true ∧ uses g v d = true.
Proof. unfold co_users. by rewrite elem_of_remove_dups, elem_of_sharers. Qed.

(** X13. Co-users go both ways and are other User nodes; a count that is
    written is at least 1 and less than the number of nodes, and a user
    who shares no device is not written at all (no 0 is ever stored). *)
Theorem co_users_facts g u :
  (∀ v, v ∈ co_users g u ↔ u ∈ co_users g v) ∧
  (∀ v, v ∈ co_users g u →
        v ≠ u ∧ labelled User g v = true ∧ labelled User g u = true) ∧
  (∀ c, coUsers_written g u = Some c →
        1 ≤ c < Z.of_nat (length (nodes g))) ∧
  (coUsers_written g u = None ↔ ∀ v, v ∉ co_users g u).
Proof.
  split; [|split; [|split]].
  - intros v. rewrite !elem_of_co_users. naive_solver.
  - intros v. rewrite elem_of_co_users. naive_solver.
  - intros c. unfold coUsers_written.
    destruct (co_users g u) as [|v vs] eqn:Hc; [done|].
    intros [= <-]. split; [simpl; lia|].
    assert (NoDup (u :: co_users g u)) as Hnd.
    { apply NoDup_cons. split; [|apply NoDup_remove_dups].
      rewrite elem_of_co_users. naive_solver. }
    assert (labelled User g u = true) as Hu.
    { assert (v ∈ co_users g u) as Hv by (rewrite Hc; left).
      apply elem_of_co_users in Hv. tauto. }
    apply (NoDup_submseteq _ (seq 0 (length (nodes g)))) in Hnd.
    + apply submseteq_length in Hnd. rewrite length_seq, Hc in Hnd.
      simpl in Hnd. simpl. lia.
    + intros x Hx. apply elem_of_seq. split; [lia|]. simpl.
      apply elem_of_cons in Hx as [->|Hx]; [by eapply labelled_lt|].
      apply elem_of_co_users in Hx as (_ & Hx & _). by eapply labelled_lt.
  - unfold coUsers_written. destruct (co_users g u) as [|v vs].
    + split; [|done]. intros _ v Hv. by apply elem_of_nil in Hv.
    + split; [done|]. intros Hno. exfalso. apply (Hno v). left.
Qed.

(** Users that use one device count each other: on the sample graph the
    three users of the shared device get 2 and the fourth is not
    written. *)
Example co_users_of_shared_device :
  coUsers_written shared_device_graph <$> [0; 1; 2; 3]%nat
  = [Some 2; Some 2; Some 2; None].
Proof. vm_compute. reflexivity. Qed.

End CoUsersFacts.
